(** * Roulette neighbours: the wheel resolver, the input parser, the
      table and the page

    A shallow embedding of [roulette_neighbors], [parse_input],
    [plot_roulette_table] and [main] of [Untitled2.py], with the Python
    built-ins they call ([str.split], [str.strip], [int], [str], [in],
    [list.index], list subscription, [range], [%]) written out.

    Conventions.
    - Python [int] is [Z]; [str] is [string], read as a sequence of
      code points below 256 (one [ascii] per code point).
    - A raised exception is the [Raise] result of the [py] monad; only
      the exception classes the two functions can meet are listed.
    - [int] refuses a literal of more than 4300 digits, the cap on
      conversions the interpreter starts with. [str], which the code
      uses only to write the offending number into a message, is total:
      the cap on writing a number out is not modelled, nor is any limit
      on memory or time.
    - The [dict] built by [roulette_neighbors] is a [gmap]; its
      insertion order is not recorded.
    - Of the data frame only the cells are kept, row by row, short rows
      filled up; the styled frame pairs every cell with its style, as a
      pandas that has [Styler.applymap] computes it.
    - [main] is a function of what the slider and the text box return,
      and yields the calls it makes on the page in order. *)

From Stdlib Require Import ZArith List String Ascii Lia DecimalString Permutation.
From Stdlib Require DecimalPos.
From stdpp Require Import gmap strings list.

Local Open Scope string_scope.
Local Open Scope Z_scope.

(** ** Exceptions *)

Inductive exn : Type :=
  | ValueError (msg : string)
  | IndexError (msg : string)
  | ZeroDivisionError (msg : string).

Inductive py (A : Type) : Type :=
  | Ok (a : A)
  | Raise (e : exn).
Arguments Ok {A} a.
Arguments Raise {A} e.

Definition bind {A B} (m : py A) (k : A -> py B) : py B :=
  match m with
  | Ok a => k a
  | Raise e => Raise e
  end.

Notation "'do' x <- m ; k" := (bind m (fun x => k))
  (at level 10, x name, m at level 100, k at level 200).

(** ** Built-ins on strings *)

Module Builtins.

(** [str.isspace] on one character, for code points below 256. *)
Definition isspace (c : ascii) : bool :=
  let n := N_of_ascii c in
  ((9 <=? n) && (n <=? 13) || (28 <=? n) && (n <=? 32)
   || (n =? 133) || (n =? 160))%N.

(** [s.split(sep)] for a one-character separator: never empty,
    empty pieces are kept. *)
Fixpoint split_sep (sep : ascii) (s : string) : list string :=
  match s with
  | EmptyString => [EmptyString]
  | String c s' =>
      if Ascii.eqb c sep then EmptyString :: split_sep sep s'
      else match split_sep sep s' with
           | piece :: rest => String c piece :: rest
           | [] => [String c EmptyString]
           end
  end.

Fixpoint lstrip (s : string) : string :=
  match s with
  | EmptyString => EmptyString
  | String c s' => if isspace c then lstrip s' else s
  end.

Fixpoint rstrip (s : string) : string :=
  match s with
  | EmptyString => EmptyString
  | String c s' =>
      match rstrip s' with
      | EmptyString => if isspace c then EmptyString else String c EmptyString
      | r => String c r
      end
  end.

(** [s.strip()] *)
Definition strip (s : string) : string := rstrip (lstrip s).

(** [s.split()] with no separator: maximal runs of non-space
    characters, in order; [cur] is the run being read. *)
Fixpoint split_go (s : string) (cur : string) : list string :=
  match s with
  | EmptyString => match cur with EmptyString => [] | _ => [cur] end
  | String c s' =>
      if isspace c then
        match cur with
        | EmptyString => split_go s' EmptyString
        | _ => cur :: split_go s' EmptyString
        end
      else split_go s' (cur ++ String c EmptyString)
  end.

Definition split (s : string) : list string := split_go s EmptyString.

(** The characters [int] skips around a literal: the C-locale blanks,
    and the two non-ASCII spaces below 256. *)
Definition int_space (c : ascii) : bool :=
  let n := N_of_ascii c in
  ((9 <=? n) && (n <=? 13) || (n =? 32) || (n =? 133) || (n =? 160))%N.

Definition digit_value (c : ascii) : option Z :=
  let n := N_of_ascii c in
  if ((48 <=? n) && (n <=? 57))%N then Some (Z.of_N n - 48) else None.

Fixpoint all_int_space (s : string) : bool :=
  match s with
  | EmptyString => true
  | String c s' => int_space c && all_int_space s'
  end.

Inductive scan_state := AtStart | AfterDigit | AfterUnderscore.

(** The digits of a base-10 literal: single underscores between digits
    only, at least one digit, then blanks up to the end. *)
Fixpoint int_digits (s : string) (prev : scan_state) (acc : Z) : option Z :=
  match s with
  | EmptyString =>
      match prev with AfterDigit => Some acc | _ => None end
  | String c s' =>
      match digit_value c with
      | Some d => int_digits s' AfterDigit (10 * acc + d)
      | None =>
          if Ascii.eqb c "_" then
            match prev with
            | AfterDigit => int_digits s' AfterUnderscore acc
            | _ => None
            end
          else
            match prev with
            | AfterDigit => if all_int_space s then Some acc else None
            | _ => None
            end
      end
  end.

Fixpoint int_lstrip (s : string) : string :=
  match s with
  | EmptyString => EmptyString
  | String c s' => if int_space c then int_lstrip s' else s
  end.

(** The value of a base-10 literal, blanks and sign included. *)
Definition int_literal (s : string) : option Z :=
  match int_lstrip s with
  | String "+" s' => int_digits s' AtStart 0
  | String "-" s' => Z.opp <$> int_digits s' AtStart 0
  | s' => int_digits s' AtStart 0
  end.

(** The digits of [s]; in a literal they are the digits the
    interpreter counts (sign, blanks and underscores are not). *)
Fixpoint digit_count (s : string) : nat :=
  match s with
  | EmptyString => 0%nat
  | String c s' =>
      match digit_value c with
      | Some _ => Datatypes.S (digit_count s')
      | None => digit_count s'
      end
  end.

(** [sys.get_int_max_str_digits()] as the interpreter starts with. *)
Definition int_max_str_digits : nat := 4300.

(** [int(s)] for a string [s]; [None] is the [ValueError] it raises,
    for a text that is no literal and for a literal of more digits
    than the interpreter converts. *)
Definition int (s : string) : option Z :=
  if (int_max_str_digits <? digit_count s)%nat then None else int_literal s.

(** [str(n)] for an integer [n], which is also how an f-string
    renders it. *)
Definition str (n : Z) : string := NilZero.string_of_int (Z.to_int n).

(** [x in l] on a list of integers. *)
Definition contains (x : Z) (l : list Z) : bool := existsb (Z.eqb x) l.

(** [l.index(x)]: the first position holding [x]. *)
Fixpoint list_index (l : list Z) (x : Z) : py Z :=
  match l with
  | [] => Raise (ValueError (str x ++ " is not in list"))
  | y :: l' => if Z.eqb y x then Ok 0 else do i <- list_index l' x; Ok (i + 1)
  end.

Definition len {A} (l : list A) : Z := Z.of_nat (List.length l).

(** [l[k]]: a negative [k] counts from the end. *)
Definition getitem (l : list Z) (k : Z) : py Z :=
  let k' := if k <? 0 then k + len l else k in
  if (k' <? 0) || (len l <=? k') then Raise (IndexError "list index out of range")
  else match l !! Z.to_nat k' with
       | Some x => Ok x
       | None => Raise (IndexError "list index out of range")
       end.

(** [a % b] on integers: the result has the sign of [b]. *)
Definition mod_ (a b : Z) : py Z :=
  if b =? 0 then Raise (ZeroDivisionError "integer modulo by zero")
  else Ok (a mod b).

(** [range(start, stop)] as the list it iterates over. *)
Definition range (start stop : Z) : list Z :=
  map (fun k => start + Z.of_nat k) (seq 0 (Z.to_nat (stop - start))).

(** A list comprehension [[f i for i in l]]: left to right, the first
    exception ends it. *)
Fixpoint comprehension {A B} (f : A -> py B) (l : list A) : py (list B) :=
  match l with
  | [] => Ok []
  | a :: l' => do b <- f a; do bs <- comprehension f l'; Ok (b :: bs)
  end.

(** A [for] loop threading the variables it assigns to. *)
Fixpoint for_each {A S} (body : S -> A -> py S) (l : list A) (st : S) : py S :=
  match l with
  | [] => Ok st
  | a :: l' => do st' <- body st a; for_each body l' st'
  end.

End Builtins.

Import Builtins.

(** ** The wheel resolver: [roulette_neighbors] *)

(** The variables of [roulette_neighbors] that outlive one iteration
    of its loop. *)
Record locals : Type := Locals {
  roulette_wheel : list Z;
  total_numbers : Z;
  result : gmap Z (list Z)
}.

(** The state on entering the loop: the wheel literal, its length and
    the empty dictionary. *)
Definition initial_locals : locals :=
  let roulette_wheel :=
    [0; 32; 15; 19; 4; 21; 2; 25; 17; 34; 6;
     27; 13; 36; 11; 30; 8; 23; 10; 5; 24;
     16; 33; 1; 20; 14; 31; 9; 22; 18; 29;
     7; 28; 12; 35; 3; 26] in
  {| roulette_wheel := roulette_wheel;
     total_numbers := len roulette_wheel;
     result := ∅ |}.

Definition invalid_number_msg (number : Z) : string :=
  "Invalid number: " ++ str number ++ ". Must be between 0 and 36.".

Definition negative_count_msg (number : Z) : string :=
  "Neighbor count for number " ++ str number ++ " must be non-negative.".

(** One iteration of [for number, neighbor_count in number_neighbor_pairs]. *)
Definition loop_body (st : locals) (pair : Z * Z) : py locals :=
  let '(number, neighbor_count) := pair in
  if negb (contains number (roulette_wheel st)) then
    Raise (ValueError (invalid_number_msg number))
  else if neighbor_count <? 0 then
    Raise (ValueError (negative_count_msg number))
  else
    do index <- list_index (roulette_wheel st) number;
    do neighbors <-
      comprehension
        (fun i => do k <- mod_ (index + i) (total_numbers st);
                  getitem (roulette_wheel st) k)
        (range (- neighbor_count) (neighbor_count + 1));
    Ok {| roulette_wheel := roulette_wheel st;
          total_numbers := total_numbers st;
          result := <[number := neighbors]> (result st) |}.

Definition roulette_neighbors (number_neighbor_pairs : list (Z * Z))
  : py (gmap Z (list Z)) :=
  do st <- for_each loop_body number_neighbor_pairs initial_locals;
  Ok (result st).

(** ** The input parser: [parse_input] *)

Definition invalid_pair_msg (pair : string) : string :=
  "Invalid input format for pair '" ++ pair
  ++ "'. Ensure numbers and counts are integers.".

Definition invalid_single_msg (pair : string) : string :=
  "Invalid number format for '" ++ pair ++ "'. Ensure it's an integer.".

Definition invalid_format_msg (pair : string) : string :=
  "Invalid format for '" ++ pair ++ "'. Use 'number count' or 'number'.".

(** One iteration of [for pair in pairs]: the list built so far comes
    in, the list with one more pair goes out. A [ValueError] of [int]
    inside a [try] is replaced by the one of the [except] clause. *)
Definition parse_body (default_neighbors : Z)
    (number_neighbor_pairs : list (Z * Z)) (pair : string)
  : py (list (Z * Z)) :=
  let parts := split (strip pair) in
  match parts with
  | [part0; part1] =>
      match int (strip part0) with
      | Some number =>
          match int (strip part1) with
          | Some neighbor_count =>
              Ok (number_neighbor_pairs ++ [(number, neighbor_count)])%list
          | None => Raise (ValueError (invalid_pair_msg pair))
          end
      | None => Raise (ValueError (invalid_pair_msg pair))
      end
  | [part0] =>
      match int (strip part0) with
      | Some number => Ok (number_neighbor_pairs ++ [(number, default_neighbors)])%list
      | None => Raise (ValueError (invalid_single_msg pair))
      end
  | _ => Raise (ValueError (invalid_format_msg pair))
  end.

Definition parse_input (input_str : string) (default_neighbors : Z)
  : py (list (Z * Z)) :=
  let pairs := split_sep "," input_str in
  for_each (parse_body default_neighbors) pairs [].

(** ** The table: [plot_roulette_table] *)

(** What a cell of the data frame holds: a number or a string of the
    literal, or the [NaN] the frame puts where a row is shorter than
    the longest one. *)
Inductive cell : Type :=
  | Num (n : Z)
  | Str (s : string)
  | NaN.

(** [pd.DataFrame(rows)] for a list of rows: every row is filled up
    with [NaN] to the length of the longest. *)
Definition DataFrame (rows : list (list cell)) : list (list cell) :=
  let width := foldr (fun row w => Nat.max (length row) w) 0%nat rows in
  map (fun row => row ++ replicate (width - length row) NaN)%list rows.

(** [val in numbers] for a cell and a list of integers: a string and
    [NaN] equal no integer. *)
Definition cell_in (val : cell) (numbers : list Z) : bool :=
  match val with
  | Num n => contains n numbers
  | Str _ => false
  | NaN => false
  end.

Module Plot.

(** The literal that [plot_roulette_table] lays out. *)
Definition roulette_wheel : list (list cell) :=
  [ [Num 5; Num 24; Num 16; Num 33; Num 1; Num 20; Num 14; Num 31; Num 9;
     Num 22; Num 18; Num 29; Num 7; Num 28; Num 12; Num 35; Num 3];
    [Num 10; Str " "; Str " "; Str " "; Str " "; Str " "; Str " "; Str " ";
     Str " "; Str " "; Str " "; Str " "; Num 26];
    [Num 23; Str " "; Str " "; Str " "; Str " "; Str " "; Str " "; Str " ";
     Str " "; Str " "; Str " "; Str " "; Str " "];
    [Num 8; Num 30; Num 11; Num 36; Num 13; Num 27; Num 6; Num 34; Num 17;
     Num 25; Num 2; Num 21; Num 4; Num 19; Num 15; Num 32; Num 0] ].

End Plot.

Definition highlight_numbers (numbers : list Z) (val : cell) : string :=
  let color := if cell_in val numbers then "lightblue" else "white" in
  "background-color: " ++ color.

(** The styled frame handed to [st.table]: each cell with the style
    [applymap] gives it. *)
Definition plot_roulette_table (numbers : list Z)
  : list (list (cell * string)) :=
  let df := DataFrame Plot.roulette_wheel in
  map (map (fun val => (val, highlight_numbers numbers val))) df.

(** ** The page: [main] *)

(** The calls [main] makes on the page, in order. *)
Inductive st_call : Type :=
  | st_title (body : string)
  | st_write (body : string)
  | st_slider (label : string) (min_value max_value step value : Z)
  | st_text_input (label value : string)
  | st_subheader (body : string)
  | st_table (data : list (list (cell * string)))
  | st_error (body : string).

(** The body of the [try] of [main]. The set that removes the
    duplicates fixes no order; only membership in the list is used. *)
Definition main_try (default_neighbors : Z) (user_input : string)
  : py (list st_call) :=
  do number_neighbor_pairs <- parse_input user_input default_neighbors;
  do neighbors <- roulette_neighbors number_neighbor_pairs;
  let input_numbers := map fst number_neighbor_pairs in
  let numbers_to_highlight :=
    elements (list_to_set (concat (map snd (map_to_list neighbors))) : gset Z) in
  Ok [st_subheader "Table 1: Input Numbers Only";
      st_table (plot_roulette_table input_numbers);
      st_subheader "Table 2: Input Numbers and Neighbors";
      st_table (plot_roulette_table numbers_to_highlight)].

(** [main], given what the slider and the text box return: the calls
    made on the page, or the exception that leaves [main]. *)
Definition main (default_neighbors : Z) (user_input : string)
  : py (list st_call) :=
  let page :=
    [st_title "Roulette Neighbors Finder";
     st_write "Enter the numbers and their neighbors:
        
        Use the format: `number neighbor_count, number neighbor_count` or just `number` for a default neighbor count of 1.
        For example: `3 3, 8 1, 12`
        ";
     st_slider "Select default number of neighbors:" 1 3 2 1;
     st_text_input "Input your numbers and neighbors:" ""] in
  match user_input with
  | EmptyString => Ok page
  | _ =>
      match main_try default_neighbors user_input with
      | Ok calls => Ok (page ++ calls)%list
      | Raise (ValueError e) => Ok (page ++ [st_error ("Error: " ++ e)])%list
      | Raise e => Raise e
      end
  end.

(** ** Closed forms for the statements *)

(** The wheel of [roulette_neighbors]. *)
Definition wheel : list Z := roulette_wheel initial_locals.
Arguments wheel : simpl never.

(** Where [number] sits on the wheel. *)
Definition position (number : Z) : Z :=
  match list_index wheel number with
  | Ok i => i
  | Raise _ => 0
  end.

(** The list the comprehension builds for one accepted pair. *)
Definition neighbors (number neighbor_count : Z) : list Z :=
  map (fun i => nth (Z.to_nat ((position number + i) mod 37)) wheel 0)
      (range (- neighbor_count) (neighbor_count + 1)).

(** The pairs the two guards of the loop let through. *)
Definition valid_pair (p : Z * Z) : Prop := 0 <= p.1 <= 36 /\ 0 <= p.2.

(** The dictionary after storing the lists of [pairs] in turn. *)
Definition store_all (m : gmap Z (list Z)) (pairs : list (Z * Z))
  : gmap Z (list Z) :=
  foldl (fun m p => <[p.1 := neighbors p.1 p.2]> m) m pairs.

(** The loop never leaves the states with the wheel and its length. *)
Definition wheel_inv (st : locals) : Prop :=
  roulette_wheel st = wheel /\ total_numbers st = 37.

(** What a segment has to look like for [parse_input] to turn it into
    the pair [p]: one integer token and the default radius, or two
    integer tokens. *)
Definition segment_yields (default_neighbors : Z) (pair : string)
    (p : Z * Z) : Prop :=
  match split (strip pair) with
  | [part0] => int (strip part0) = Some p.1 /\ p.2 = default_neighbors
  | [part0; part1] =>
      int (strip part0) = Some p.1 /\ int (strip part1) = Some p.2
  | _ => False
  end.

Definition accepted (default_neighbors : Z) (pair : string) : Prop :=
  exists p, segment_yields default_neighbors pair p.

(** How often [c] occurs in [s]. *)
Fixpoint count_char (c : ascii) (s : string) : nat :=
  match s with
  | EmptyString => 0%nat
  | String c' s' =>
      if Ascii.eqb c' c then Datatypes.S (count_char c s') else count_char c s'
  end.

(** Every character of [s] passes [P]. *)
Fixpoint all_chars (P : ascii -> bool) (s : string) : bool :=
  match s with
  | EmptyString => true
  | String c s' => P c && all_chars P s'
  end.

(** The pieces of [l] with [sep] between them. *)
Fixpoint join (sep : string) (l : list string) : string :=
  match l with
  | [] => EmptyString
  | [x] => x
  | x :: l' => x ++ sep ++ join sep l'
  end.

(** Integers whose decimal form [int] reads back: those written in at
    most [int_max_str_digits] characters. *)
Definition short_numeral (n : Z) : Prop :=
  (String.length (str n) <= int_max_str_digits)%nat.

(** Requests all of whose integers are such. *)
Definition writable (q : Z * option Z) : Prop :=
  short_numeral q.1
  /\ match q.2 with Some r => short_numeral r | None => True end.

(** A request written the way the page asks for it: the number, then
    a blank and the count when there is one. *)
Definition format_request (q : Z * option Z) : string :=
  match q.2 with
  | Some r => str q.1 ++ " " ++ str r
  | None => str q.1
  end.

(** The lightblue cells of a styled frame, as the values they hold. *)
Definition highlighted (data : list (list (cell * string))) : list cell :=
  map fst (List.filter (fun vs => String.eqb vs.2 "background-color: lightblue")
             (concat data)).

(** Texts without a blank, and texts without a comma. *)
Definition no_space (s : string) : bool :=
  all_chars (fun c => negb (isspace c)) s.

Definition no_comma (s : string) : bool :=
  all_chars (fun c => negb (Ascii.eqb c ",")) s.

(** The number a cell holds, if it holds one. *)
Definition cell_number (c : cell) : option Z :=
  match c with
  | Num n => Some n
  | _ => None
  end.

(** * Properties *)

(** ** The built-ins on examples *)

Example int_examples :
  map int ["1_0"; "_1"; "1_"; "1__0"; "+5"; "-5"; "+-5"; "- 5"; "007"; "0x10";
           ""; "-"; " 5 "; "-0"; "+_1"; "1 2"; "abc"]
  = [Some 10; None; None; None; Some 5; Some (-5); None; None; Some 7; None;
     None; None; Some 5; Some 0; None; None; None].
Proof. reflexivity. Qed.

Example split_examples :
  split_sep "," "" = [""] /\ split_sep "," "a,,b," = ["a"; ""; "b"; ""]
  /\ split " a  b " = ["a"; "b"] /\ split "" = [] /\ strip "  a b  " = "a b".
Proof. repeat split; reflexivity. Qed.

Example str_examples : map str [0; 7; 36; -5; 99] = ["0"; "7"; "36"; "-5"; "99"].
Proof. reflexivity. Qed.

(** ** Generic facts about the loops and the list built-ins *)

Section Loops.
Context {A S : Type} (body : S -> A -> py S).

Lemma for_each_app (l1 l2 : list A) (st : S) :
  for_each body (l1 ++ l2)%list st
  = do st' <- for_each body l1 st; for_each body l2 st'.
Proof.
  revert st; induction l1 as [|a l1 IH]; intros st; simpl; [done|].
  destruct (body st a); simpl; auto.
Qed.

(** A loop whose body keeps [P] keeps [P]. *)
Lemma for_each_invariant (P : S -> Prop) (l : list A) (st st' : S) :
  (forall s a s', P s -> body s a = Ok s' -> P s') ->
  P st -> for_each body l st = Ok st' -> P st'.
Proof.
  intros Hstep; revert st; induction l as [|a l IH]; intros st HP; simpl.
  - intros [= <-]; exact HP.
  - destruct (body st a) as [s1|e] eqn:E; simpl; [|discriminate].
    apply IH; eauto.
Qed.
End Loops.

Lemma contains_elem_of (x : Z) (l : list Z) : contains x l = true <-> x ∈ l.
Proof.
  unfold contains; rewrite existsb_exists, list_elem_of_In; split.
  - intros (y & Hy & E); apply Z.eqb_eq in E; subst; exact Hy.
  - intros H; exists x; split; [exact H | apply Z.eqb_refl].
Qed.

Lemma list_index_found (l : list Z) (x : Z) :
  x ∈ l ->
  exists i, list_index l x = Ok i /\ 0 <= i < len l /\ l !! Z.to_nat i = Some x.
Proof.
  unfold len; induction l as [|y l IH]; intros Hin; [by apply elem_of_nil in Hin|].
  simpl list_index; destruct (Z.eqb_spec y x) as [->|Hne].
  - exists 0; repeat split; simpl; lia.
  - apply elem_of_cons in Hin as [->|Hin]; [done|].
    destruct (IH Hin) as (i & -> & Hi & Hl); exists (i + 1); simpl.
    repeat split; try lia.
    replace (Z.to_nat (i + 1)) with (Datatypes.S (Z.to_nat i)) by lia; exact Hl.
Qed.

Lemma getitem_in_range (l : list Z) (k : Z) :
  0 <= k < len l -> getitem l k = Ok (nth (Z.to_nat k) l 0).
Proof.
  unfold getitem, len; intros Hk.
  destruct (Z.ltb_spec k 0); [lia|].
  destruct (Z.ltb_spec k 0); [lia|].
  destruct (Z.leb_spec (Z.of_nat (length l)) k); [lia|]; simpl.
  destruct (l !! Z.to_nat k) as [x|] eqn:E.
  - by rewrite (nth_lookup_Some _ _ 0 _ E).
  - apply lookup_ge_None in E; lia.
Qed.

Lemma range_length (a b : Z) : length (range a b) = Z.to_nat (b - a).
Proof. unfold range; by rewrite length_map, length_seq. Qed.

Lemma range_lookup (a b : Z) (k : nat) :
  (k < Z.to_nat (b - a))%nat -> range a b !! k = Some (a + Z.of_nat k).
Proof.
  intros Hk; unfold range; rewrite list_lookup_fmap, lookup_seq_lt; done.
Qed.

Lemma comprehension_total {A B} (f : A -> py B) (g : A -> B) (l : list A) :
  (forall a, f a = Ok (g a)) -> comprehension f l = Ok (map g l).
Proof.
  intros Hf; induction l as [|a l IH]; simpl; [done|].
  by rewrite Hf, IH.
Qed.

(** ** The wheel *)

Lemma wheel_length : length wheel = 37%nat.
Proof. reflexivity. Qed.

Lemma wheel_contains (n : Z) : contains n wheel = true <-> 0 <= n <= 36.
Proof.
  split.
  - intros H; apply contains_elem_of, list_elem_of_In in H.
    unfold wheel in H; simpl in H.
    repeat (destruct H as [<-|H]; [lia|]); contradiction.
  - intros H.
    assert (exists k, (k < 37)%nat /\ n = Z.of_nat k) as (k & Hk & ->)
      by (exists (Z.to_nat n); lia).
    clear H; do 37 (destruct k as [|k]; [reflexivity|]); lia.
Qed.

Lemma wheel_NoDup : NoDup wheel.
Proof. apply (bool_decide_unpack _); vm_compute; reflexivity. Qed.

Lemma position_spec (n : Z) :
  0 <= n <= 36 ->
  list_index wheel n = Ok (position n) /\ 0 <= position n < 37
  /\ wheel !! Z.to_nat (position n) = Some n.
Proof.
  intros H; apply wheel_contains, contains_elem_of in H.
  destruct (list_index_found _ _ H) as (i & Hi & Hr & Hl).
  unfold position; rewrite Hi; auto.
Qed.

(** ** One iteration *)

Lemma loop_body_spec (st : locals) (n r : Z) :
  wheel_inv st ->
  loop_body st (n, r)
  = if negb (contains n wheel) then Raise (ValueError (invalid_number_msg n))
    else if r <? 0 then Raise (ValueError (negative_count_msg n))
    else Ok {| roulette_wheel := roulette_wheel st;
               total_numbers := total_numbers st;
               result := <[n := neighbors n r]> (result st) |}.
Proof.
  intros [Hw Ht]; unfold loop_body; rewrite Hw, Ht.
  destruct (contains n wheel) eqn:E; [|reflexivity].
  destruct (r <? 0); [reflexivity|]; cbn [negb].
  apply wheel_contains in E; destruct (position_spec n E) as (-> & Hp & _).
  cbn [bind].
  rewrite (comprehension_total _
             (fun i => nth (Z.to_nat ((position n + i) mod 37)) wheel 0)).
  - reflexivity.
  - intros i; unfold mod_; cbn [Z.eqb bind].
    apply getitem_in_range; change (len wheel) with 37.
    apply Z.mod_pos_bound; lia.
Qed.

Lemma loop_body_inv (st st' : locals) (p : Z * Z) :
  loop_body st p = Ok st' ->
  roulette_wheel st' = roulette_wheel st /\ total_numbers st' = total_numbers st.
Proof.
  destruct p as [n r]; unfold loop_body.
  destruct (negb _); [discriminate|]; destruct (r <? 0); [discriminate|].
  destruct (list_index _ _); [|discriminate]; cbn [bind].
  destruct (comprehension _ _); [|discriminate]; cbn [bind].
  intros [= <-]; auto.
Qed.

Lemma loop_body_valid (st : locals) (p : Z * Z) :
  wheel_inv st -> valid_pair p ->
  loop_body st p = Ok {| roulette_wheel := roulette_wheel st;
                         total_numbers := total_numbers st;
                         result := <[p.1 := neighbors p.1 p.2]> (result st) |}.
Proof.
  destruct p as [n r]; intros Hinv [Hn Hr]; cbn [fst snd] in *.
  rewrite (loop_body_spec _ _ _ Hinv).
  apply wheel_contains in Hn; rewrite Hn; cbn [negb].
  destruct (Z.ltb_spec r 0); [lia|reflexivity].
Qed.

Lemma loop_body_invalid (st : locals) (n r : Z) :
  wheel_inv st -> ~ valid_pair (n, r) ->
  loop_body st (n, r)
  = Raise (ValueError (if contains n wheel then negative_count_msg n
                       else invalid_number_msg n)).
Proof.
  intros Hinv Hnv; rewrite (loop_body_spec _ _ _ Hinv).
  destruct (contains n wheel) eqn:E; [|reflexivity]; cbn [negb].
  destruct (Z.ltb_spec r 0); [reflexivity|].
  exfalso; apply Hnv; split; [by apply wheel_contains|done].
Qed.

Lemma valid_pair_dec (p : Z * Z) : {valid_pair p} + {~ valid_pair p}.
Proof.
  unfold valid_pair.
  destruct (Z_le_dec 0 p.1), (Z_le_dec p.1 36), (Z_le_dec 0 p.2);
    solve [left; lia | right; lia].
Qed.

(** ** The whole loop *)

Lemma for_each_valid (pairs : list (Z * Z)) (st : locals) :
  wheel_inv st -> Forall valid_pair pairs ->
  for_each loop_body pairs st
  = Ok {| roulette_wheel := roulette_wheel st;
          total_numbers := total_numbers st;
          result := store_all (result st) pairs |}.
Proof.
  intros Hinv Hall; revert st Hinv.
  induction Hall as [|p pairs Hp _ IH]; intros st Hinv; cbn [for_each].
  - by destruct st.
  - rewrite (loop_body_valid _ _ Hinv Hp); cbn [bind].
    rewrite IH; [reflexivity|exact Hinv].
Qed.

Lemma for_each_first_invalid (pre post : list (Z * Z)) (n r : Z) (st : locals) :
  wheel_inv st -> Forall valid_pair pre -> ~ valid_pair (n, r) ->
  for_each loop_body (pre ++ (n, r) :: post)%list st
  = Raise (ValueError (if contains n wheel then negative_count_msg n
                       else invalid_number_msg n)).
Proof.
  intros Hinv Hpre Hnv.
  rewrite for_each_app, (for_each_valid _ _ Hinv Hpre); cbn [bind for_each].
  rewrite loop_body_invalid; [reflexivity|exact Hinv|exact Hnv].
Qed.

Lemma for_each_ok_valid (pairs : list (Z * Z)) (st st' : locals) :
  wheel_inv st -> for_each loop_body pairs st = Ok st' -> Forall valid_pair pairs.
Proof.
  revert st; induction pairs as [|[n r] pairs IH]; intros st Hinv; [constructor|].
  cbn [for_each].
  destruct (valid_pair_dec (n, r)) as [Hv|Hnv].
  - rewrite (loop_body_valid _ _ Hinv Hv); cbn [bind]; intros H.
    constructor; [exact Hv|]. eapply IH; [|exact H]. exact Hinv.
  - rewrite (loop_body_invalid _ _ _ Hinv Hnv); discriminate.
Qed.

Lemma initial_inv : wheel_inv initial_locals.
Proof. split; reflexivity. Qed.

Lemma roulette_neighbors_valid (pairs : list (Z * Z)) :
  Forall valid_pair pairs -> roulette_neighbors pairs = Ok (store_all ∅ pairs).
Proof.
  intros H; unfold roulette_neighbors.
  by rewrite (for_each_valid _ _ initial_inv H).
Qed.

Lemma roulette_neighbors_ok (pairs : list (Z * Z)) (m : gmap Z (list Z)) :
  roulette_neighbors pairs = Ok m ->
  Forall valid_pair pairs /\ m = store_all ∅ pairs.
Proof.
  unfold roulette_neighbors; intros H.
  destruct (for_each loop_body pairs initial_locals) as [st|] eqn:E;
    [|discriminate].
  pose proof (for_each_ok_valid _ _ _ initial_inv E) as Hall.
  split; [exact Hall|].
  rewrite (for_each_valid _ _ initial_inv Hall) in E.
  injection E as <-; cbn [bind result] in H; injection H as <-; reflexivity.
Qed.

(** ** The dictionary that the loop fills *)

Lemma store_all_app (m : gmap Z (list Z)) (l1 l2 : list (Z * Z)) :
  store_all m (l1 ++ l2)%list = store_all (store_all m l1) l2.
Proof. apply foldl_app. Qed.

Lemma store_all_lookup_other (pairs : list (Z * Z)) (m : gmap Z (list Z)) (n : Z) :
  n ∉ pairs.*1 -> store_all m pairs !! n = m !! n.
Proof.
  revert m; induction pairs as [|[k r] pairs IH]; intros m Hn; [done|].
  rewrite fmap_cons, not_elem_of_cons in Hn; destruct Hn as [Hne Hn].
  change (store_all (<[k := neighbors k r]> m) pairs !! n = m !! n).
  rewrite (IH _ Hn); apply lookup_insert_ne; auto.
Qed.

Lemma store_all_lookup_last (pre post : list (Z * Z)) (m : gmap Z (list Z))
    (n r : Z) :
  n ∉ post.*1 ->
  store_all m (pre ++ (n, r) :: post)%list !! n = Some (neighbors n r).
Proof.
  intros Hn; rewrite store_all_app.
  change (store_all (<[n := neighbors n r]> (store_all m pre)) post !! n
          = Some (neighbors n r)).
  rewrite (store_all_lookup_other _ _ _ Hn); apply lookup_insert_eq.
Qed.

Lemma store_all_dom (pairs : list (Z * Z)) (m : gmap Z (list Z)) :
  dom (store_all m pairs) = dom m ∪ list_to_set pairs.*1.
Proof.
  revert m; induction pairs as [|[k r] pairs IH]; intros m.
  - cbn; by rewrite (right_id_L ∅ (∪)).
  - change (dom (store_all (<[k := neighbors k r]> m) pairs)
            = dom m ∪ list_to_set ((k, r) :: pairs).*1).
    rewrite IH, dom_insert_L, fmap_cons; cbn [fst list_to_set].
    rewrite (comm_L (∪) {[k]} (dom m)); by rewrite (assoc_L (∪)).
Qed.

Lemma roulette_neighbors_single (n r : Z) :
  0 <= n <= 36 -> 0 <= r ->
  roulette_neighbors [(n, r)] = Ok {[n := neighbors n r]}.
Proof.
  intros Hn Hr; rewrite roulette_neighbors_valid.
  - unfold store_all; cbn [foldl fst snd]; by rewrite insert_empty.
  - repeat constructor; cbn; lia.
Qed.

Lemma neighbors_length (n r : Z) :
  0 <= r -> length (neighbors n r) = Z.to_nat (2 * r + 1).
Proof.
  intros Hr; unfold neighbors; rewrite length_map, range_length; f_equal; lia.
Qed.

Lemma neighbors_lookup (n r : Z) (k : nat) :
  (k < Z.to_nat (2 * r + 1))%nat ->
  neighbors n r !! k
  = wheel !! Z.to_nat ((position n - r + Z.of_nat k) mod 37).
Proof.
  intros Hk; unfold neighbors.
  rewrite list_lookup_fmap, range_lookup by lia; cbn [fmap option_fmap option_map].
  replace (position n + (- r + Z.of_nat k)) with (position n - r + Z.of_nat k)
    by lia.
  set (j := (position n - r + Z.of_nat k) mod 37).
  assert (0 <= j < 37) as Hj by (apply Z.mod_pos_bound; lia).
  destruct (nth_lookup_or_length wheel (Z.to_nat j) 0) as [->|Hge]; [done|].
  rewrite wheel_length in Hge; lia.
Qed.

(** ** The claims about [roulette_neighbors] *)

(** C1. For every number [n] in 0-36 and every radius [r >= 0],
    [roulette_neighbors([(n, r)])] succeeds and maps [n] to a list of
    length [2*r+1] whose middle element (index [r]) is [n]; for [r = 0]
    the list is exactly [[n]]. *)
Theorem single_pair_length_and_centre (n r : Z) :
  0 <= n <= 36 -> 0 <= r ->
  exists l : list Z,
    roulette_neighbors [(n, r)] = Ok {[n := l]}
    /\ len l = 2 * r + 1
    /\ l !! Z.to_nat r = Some n
    /\ (r = 0 -> l = [n]).
Proof.
  intros Hn Hr; exists (neighbors n r).
  assert (neighbors n r !! Z.to_nat r = Some n) as Hmid.
  { rewrite neighbors_lookup by lia.
    replace (position n - r + Z.of_nat (Z.to_nat r)) with (position n) by lia.
    destruct (position_spec n Hn) as (_ & Hp & Hl).
    by rewrite Z.mod_small. }
  split; [by apply roulette_neighbors_single|].
  split; [unfold len; rewrite neighbors_length by done; lia|].
  split; [exact Hmid|].
  intros ->; pose proof (neighbors_length n 0 (Z.le_refl 0)) as Hlen.
  destruct (neighbors n 0) as [|x [|y l]]; try discriminate.
  by injection Hmid as ->.
Qed.

Lemma single_pair_length_and_centre_witness :
  exists l : list Z,
    roulette_neighbors [(17, 2)] = Ok {[17 := l]}
    /\ len l = 2 * 2 + 1
    /\ l !! Z.to_nat 2 = Some 17
    /\ (2 = 0 -> l = [17]).
Proof. apply (single_pair_length_and_centre 17 2); lia. Defined.

(** C3. When a number occurs in several pairs, the mapping holds the
    list of the last such pair: whatever comes before, the entry of [n]
    is the list [roulette_neighbors] gives for the last pair on [n]
    alone. In particular [roulette_neighbors([(3, 1), (3, 0)])] is
    exactly [{3: [3]}]. *)
Theorem last_pair_wins :
  roulette_neighbors [(3, 1); (3, 0)] = Ok {[3 := [3]]}
  /\ forall (pre post : list (Z * Z)) (n r : Z) (m : gmap Z (list Z)),
       roulette_neighbors (pre ++ (n, r) :: post)%list = Ok m ->
       n ∉ post.*1 ->
       exists l : list Z,
         roulette_neighbors [(n, r)] = Ok {[n := l]} /\ m !! n = Some l.
Proof.
  split; [vm_compute; reflexivity|].
  intros pre post n r m Hm Hn.
  apply roulette_neighbors_ok in Hm as [Hall ->].
  apply Forall_app in Hall as [_ Hall]; apply Forall_cons in Hall as [[H1 H2] _].
  exists (neighbors n r); split.
  - by apply roulette_neighbors_single.
  - by apply store_all_lookup_last.
Qed.

Lemma last_pair_wins_witness :
  exists l : list Z,
    roulette_neighbors [(7, 1)] = Ok {[7 := l]}
    /\ ({[7 := [29; 7; 28]; 4 := [4]]} : gmap Z (list Z)) !! 7 = Some l.
Proof.
  apply (proj2 last_pair_wins [(7, 2); (4, 0)] [] 7 1).
  - vm_compute; reflexivity.
  - vm_compute; intros H; inversion H.
Defined.

Lemma rotate_Permutation {A} (k : nat) (l : list A) : rotate k l ≡ₚ l.
Proof.
  unfold rotate; rewrite Permutation_app_comm; by rewrite take_drop.
Qed.

Lemma wheel_count_occ (n : Z) :
  0 <= n <= 36 -> count_occ Z.eq_dec wheel n = 1%nat.
Proof.
  intros Hn; apply NoDup_count_occ'.
  - apply NoDup_ListNoDup, wheel_NoDup.
  - by apply list_elem_of_In, contains_elem_of, wheel_contains.
Qed.

Lemma neighbors_18_rotate (n : Z) :
  0 <= n <= 36 ->
  neighbors n 18 = rotate (Z.to_nat ((position n + 19) mod 37)) wheel.
Proof.
  intros H.
  assert (exists k, (k < 37)%nat /\ n = Z.of_nat k) as (k & Hk & ->)
    by (exists (Z.to_nat n); lia).
  clear H; do 37 (destruct k as [|k]; [vm_compute; reflexivity|]); lia.
Qed.



(** C7. The wheel of [roulette_neighbors] has exactly 37 entries, every
    integer from 0 to 36 occurs in it exactly once, so being on the
    wheel is the same as [0 <= number <= 36], and no run of the loop
    changes it. *)
Theorem wheel_fixed :
  wheel = roulette_wheel initial_locals
  /\ length wheel = 37%nat
  /\ (forall n : Z, 0 <= n <= 36 -> count_occ Z.eq_dec wheel n = 1%nat)
  /\ (forall n : Z, n ∈ wheel <-> 0 <= n <= 36)
  /\ (forall (pairs : list (Z * Z)) (st st' : locals),
        for_each loop_body pairs st = Ok st' ->
        roulette_wheel st' = roulette_wheel st).
Proof.
  split; [reflexivity|]. split; [exact wheel_length|].
  split; [exact wheel_count_occ|].
  split; [intros n; rewrite <- contains_elem_of; apply wheel_contains|].
  intros pairs st st' H.
  apply (for_each_invariant loop_body
           (fun s => roulette_wheel s = roulette_wheel st) pairs st st');
    [|reflexivity|exact H].
  intros s a s' Hs Hb; apply loop_body_inv in Hb as [-> _]; exact Hs.
Qed.

Lemma wheel_fixed_witness :
  count_occ Z.eq_dec wheel 26 = 1%nat
  /\ roulette_wheel {| roulette_wheel := wheel; total_numbers := 37;
                       result := {[8 := [30; 8; 23]; 3 := [3]]} |}
     = roulette_wheel initial_locals.
Proof.
  destruct wheel_fixed as (_ & _ & Hc & _ & Hl); split.
  - apply Hc; lia.
  - apply (Hl [(3, 0); (8, 1)]); vm_compute; reflexivity.
Defined.

(** C10. When [roulette_neighbors] succeeds, the keys of the mapping
    are exactly the numbers of the input pairs; on the empty list it
    returns the empty mapping. *)
Theorem result_keys :
  roulette_neighbors [] = Ok ∅
  /\ forall (pairs : list (Z * Z)) (m : gmap Z (list Z)),
       roulette_neighbors pairs = Ok m -> dom m = list_to_set pairs.*1.
Proof.
  split; [reflexivity|].
  intros pairs m Hm; apply roulette_neighbors_ok in Hm as [_ ->].
  by rewrite store_all_dom, dom_empty_L, (left_id_L ∅ (∪)).
Qed.

Lemma result_keys_witness :
  dom ({[3 := [3]; 0 := [26; 0; 32]]} : gmap Z (list Z))
  = list_to_set [(0, 1); (3, 1); (3, 0)].*1.
Proof. apply (proj2 result_keys); vm_compute; reflexivity. Defined.

(** ** The parser loop *)

Lemma parse_body_ok (d : Z) (acc acc' : list (Z * Z)) (seg : string) :
  parse_body d acc seg = Ok acc' <->
  exists p, segment_yields d seg p /\ acc' = (acc ++ [p])%list.
Proof.
  unfold parse_body, segment_yields.
  destruct (split (strip seg)) as [|t0 [|t1 [|t2 ts]]].
  - split; [discriminate|]. by intros (p & [] & _).
  - destruct (int (strip t0)) as [n|]; split.
    + intros [= <-]; by exists (n, d).
    + intros ([a b] & [[= ->] Hd] & ->); cbn in Hd; by subst.
    + discriminate.
    + by intros (p & [[=] _] & _).
  - destruct (int (strip t0)) as [n|], (int (strip t1)) as [r|]; split;
      try discriminate.
    + intros [= <-]; by exists (n, r).
    + by intros ([a b] & [[= ->] [= ->]] & ->).
    + by intros (p & [_ [=]] & _).
    + by intros (p & [[=] _] & _).
    + by intros (p & [[=] _] & _).
  - split; [discriminate|]. by intros (p & [] & _).
Qed.

(** The error of an iteration does not depend on the list built so far. *)
Lemma parse_body_raise (d : Z) (acc acc' : list (Z * Z)) (seg : string) (e : exn) :
  parse_body d acc seg = Raise e -> parse_body d acc' seg = Raise e.
Proof.
  unfold parse_body.
  destruct (split (strip seg)) as [|t0 [|t1 [|t2 ts]]]; try done.
  - by destruct (int (strip t0)).
  - by destruct (int (strip t0)), (int (strip t1)).
Qed.

Lemma parse_loop_ok (d : Z) (segs : list string) (acc ps : list (Z * Z)) :
  for_each (parse_body d) segs acc = Ok ps <->
  exists qs, Forall2 (segment_yields d) segs qs /\ ps = (acc ++ qs)%list.
Proof.
  revert acc; induction segs as [|seg segs IH]; intros acc; cbn [for_each].
  - split.
    + intros [= <-]; exists []; split; [constructor|by rewrite app_nil_r].
    + intros (qs & H & ->); inversion H; by rewrite app_nil_r.
  - split.
    + destruct (parse_body d acc seg) as [acc1|] eqn:E; [|discriminate].
      cbn [bind]; intros H.
      apply parse_body_ok in E as (p & Hp & ->).
      apply IH in H as (qs & Hqs & ->).
      exists (p :: qs); split; [by constructor|by rewrite <- app_assoc].
    + intros (qs & H & ->); inversion H as [|? p ? qs' Hp Hqs]; subst.
      assert (parse_body d acc seg = Ok (acc ++ [p])%list) as ->
        by (apply parse_body_ok; eauto).
      cbn [bind]; apply IH; exists qs'; split; [done|by rewrite <- app_assoc].
Qed.

Lemma parse_loop_first_error (d : Z) (pre post : list string) (seg : string)
    (acc : list (Z * Z)) (e : exn) :
  Forall (accepted d) pre -> parse_body d [] seg = Raise e ->
  for_each (parse_body d) (pre ++ seg :: post)%list acc = Raise e.
Proof.
  intros Hpre He; revert acc.
  induction Hpre as [|s pre [p Hp] _ IH]; intros acc; cbn [app for_each].
  - by rewrite (parse_body_raise d [] acc seg e He).
  - assert (parse_body d acc s = Ok (acc ++ [p])%list) as ->
      by (apply parse_body_ok; eauto).
    cbn [bind]; apply IH.
Qed.

Lemma parse_input_ok (s : string) (d : Z) (ps : list (Z * Z)) :
  parse_input s d = Ok ps <-> Forall2 (segment_yields d) (split_sep "," s) ps.
Proof.
  unfold parse_input; rewrite parse_loop_ok; split.
  - by intros (qs & H & ->).
  - intros H; by exists ps.
Qed.

Lemma parse_body_raise_cases (d : Z) (acc : list (Z * Z)) (seg : string) (e : exn) :
  parse_body d acc seg = Raise e ->
  e = ValueError (invalid_pair_msg seg) \/ e = ValueError (invalid_single_msg seg)
  \/ e = ValueError (invalid_format_msg seg).
Proof.
  unfold parse_body.
  destruct (split (strip seg)) as [|t0 [|t1 [|t2 ts]]].
  - intros [= <-]; auto.
  - destruct (int (strip t0)); [discriminate|]. intros [= <-]; auto.
  - destruct (int (strip t0)), (int (strip t1)); try discriminate;
      intros [= <-]; auto.
  - intros [= <-]; auto.
Qed.

Lemma parse_loop_raise (d : Z) (segs : list string) (acc : list (Z * Z)) (e : exn) :
  for_each (parse_body d) segs acc = Raise e ->
  exists seg, seg ∈ segs /\ parse_body d [] seg = Raise e.
Proof.
  revert acc; induction segs as [|seg segs IH]; intros acc; cbn [for_each];
    [discriminate|].
  destruct (parse_body d acc seg) as [acc1|e1] eqn:E; cbn [bind].
  - intros H; destruct (IH _ H) as (x & Hx & Hr).
    exists x; split; [apply elem_of_cons; by right|done].
  - intros [= <-]; exists seg; split; [apply elem_of_cons; by left|].
    by apply (parse_body_raise d acc).
Qed.

(** ** The claims about [parse_input] *)

(** C4. [parse_input] returns one pair per comma-separated segment, in
    the order of the segments, without sorting or dropping repeats, and
    a one-token segment gets [default_neighbors] as its radius:
    [parse_input("3 3, 8 1, 12", 1)] is exactly
    [[(3,3), (8,1), (12,1)]]. *)
Theorem parse_input_order :
  parse_input "3 3, 8 1, 12" 1 = Ok [(3, 3); (8, 1); (12, 1)]
  /\ parse_input "8, 3 0, 8, 3" 2 = Ok [(8, 2); (3, 0); (8, 2); (3, 2)]
  /\ forall (s : string) (d : Z) (ps : list (Z * Z)),
       parse_input s d = Ok ps ->
       Forall2 (segment_yields d) (split_sep "," s) ps.
Proof.
  split; [vm_compute; reflexivity|]. split; [vm_compute; reflexivity|].
  intros s d ps; apply parse_input_ok.
Qed.

Lemma parse_input_order_witness :
  Forall2 (segment_yields 3) (split_sep "," "20 2,7") [(20, 2); (7, 3)].
Proof. apply (proj2 (proj2 parse_input_order) "20 2,7" 3); vm_compute; reflexivity. Defined.

(** C5. [parse_input] fails at the first segment it cannot read, with
    an error that tells the three kinds of bad segment apart and quotes
    the segment as written: a segment with no token or more than two
    gives the "Invalid format" error, a two-token segment with a token
    [int] rejects gives the "Invalid input format for pair" error, a
    one-token segment whose token [int] rejects gives the "Invalid
    number format" error. [parse_input("abc", 1)] raises the third and
    [parse_input("3 3 3", 1)] the first. *)
Theorem parser_errors :
  parse_input "abc" 1
  = Raise (ValueError "Invalid number format for 'abc'. Ensure it's an integer.")
  /\ parse_input "3 3 3" 1
     = Raise (ValueError
                "Invalid format for '3 3 3'. Use 'number count' or 'number'.")
  /\ parse_input "1, 3 x ,2" 1
     = Raise (ValueError
                "Invalid input format for pair ' 3 x '. Ensure numbers and counts are integers.")
  /\ (forall (s : string) (d : Z) (pre post : list string) (seg : string),
        split_sep "," s = (pre ++ seg :: post)%list ->
        Forall (accepted d) pre ->
        match split (strip seg) with
        | [part0] =>
            int (strip part0) = None ->
            parse_input s d = Raise (ValueError (invalid_single_msg seg))
        | [part0; part1] =>
            int (strip part0) = None \/ int (strip part1) = None ->
            parse_input s d = Raise (ValueError (invalid_pair_msg seg))
        | _ => parse_input s d = Raise (ValueError (invalid_format_msg seg))
        end)
  /\ (forall (s : string) (d : Z) (e : exn),
        parse_input s d = Raise e ->
        exists seg, seg ∈ split_sep "," s
          /\ (e = ValueError (invalid_pair_msg seg)
              \/ e = ValueError (invalid_single_msg seg)
              \/ e = ValueError (invalid_format_msg seg)))
  /\ (forall a b c : string,
        invalid_pair_msg a <> invalid_single_msg b
        /\ invalid_pair_msg a <> invalid_format_msg c
        /\ invalid_single_msg b <> invalid_format_msg c).
Proof.
  split; [vm_compute; reflexivity|]. split; [vm_compute; reflexivity|].
  split; [vm_compute; reflexivity|]. split; [|split].
  - intros s d pre post seg Hs Hpre; unfold parse_input; rewrite Hs.
    pose proof (parse_loop_first_error d pre post seg [] ) as Hfirst.
    unfold parse_body in Hfirst at 1.
    destruct (split (strip seg)) as [|t0 [|t1 [|t2 ts]]].
    + by apply Hfirst.
    + intros Hi; rewrite Hi in Hfirst; by apply Hfirst.
    + intros [Hi|Hi]; rewrite Hi in Hfirst.
      * by apply Hfirst.
      * destruct (int (strip t0)); by apply Hfirst.
    + by apply Hfirst.
  - intros s d e H; unfold parse_input in H.
    apply parse_loop_raise in H as (seg & Hin & Hr).
    exists seg; split; [done|]. by apply parse_body_raise_cases in Hr.
  - intros a b c; unfold invalid_pair_msg, invalid_single_msg, invalid_format_msg.
    repeat split; cbn; discriminate.
Qed.

Lemma parser_errors_witness :
  parse_input "4 1,7 2 9,x" 1 = Raise (ValueError (invalid_format_msg "7 2 9"))
  /\ exists seg, seg ∈ split_sep "," "5,-"
       /\ (ValueError (invalid_single_msg "-") = ValueError (invalid_pair_msg seg)
           \/ ValueError (invalid_single_msg "-") = ValueError (invalid_single_msg seg)
           \/ ValueError (invalid_single_msg "-") = ValueError (invalid_format_msg seg)).
Proof.
  destruct parser_errors as (_ & _ & _ & Hfirst & Hany & _); split.
  - apply (Hfirst "4 1,7 2 9,x" 1 ["4 1"] ["x"] "7 2 9"); [reflexivity|].
    repeat constructor; exists (4, 1); vm_compute; auto.
  - apply (Hany "5,-" 1); vm_compute; reflexivity.
Defined.

(** C9, as the code has it. Every pair [parse_input] produces is the
    pair of integers written in its segment: the value of the first
    token, and the value of the second token or [default_neighbors]
    when there is none. That is all the parser asks for, it checks no
    range; the pairs are valid requests (number in 0-36, radius not
    negative) exactly when [roulette_neighbors] accepts the list. *)
Theorem parse_input_pairs_unchecked (s : string) (d : Z) (ps : list (Z * Z)) :
  (parse_input s d = Ok ps <-> Forall2 (segment_yields d) (split_sep "," s) ps)
  /\ (parse_input s d = Ok ps ->
      (Forall valid_pair ps <-> exists m, roulette_neighbors ps = Ok m)).
Proof.
  split; [apply parse_input_ok|]; intros _; split.
  - intros Hv; eexists; by apply roulette_neighbors_valid.
  - intros [m Hm]; by apply roulette_neighbors_ok in Hm as [Hv _].
Qed.

Lemma parse_input_pairs_unchecked_witness :
  Forall2 (segment_yields 1) (split_sep "," "0, 36 2") [(0, 1); (36, 2)]
  /\ (Forall valid_pair [(0, 1); (36, 2)]
      <-> exists m, roulette_neighbors [(0, 1); (36, 2)] = Ok m).
Proof.
  assert (parse_input "0, 36 2" 1 = Ok [(0, 1); (36, 2)]) as H
    by (vm_compute; reflexivity).
  destruct (parse_input_pairs_unchecked "0, 36 2" 1 [(0, 1); (36, 2)])
    as [Hshape Hvalid].
  split; [apply Hshape, H|apply Hvalid, H].
Defined.

(** C9, as stated, fails: the parser returns a number outside 0-36 and
    a negative radius as they are written, and passes a negative
    default on. *)
Lemma parse_input_range_counterexample :
  parse_input "99 -1" 1 = Ok [(99, -1)]
  /\ parse_input "5" (-2) = Ok [(5, -2)]
  /\ ~ (forall (s : string) (d : Z) (ps : list (Z * Z)),
          parse_input s d = Ok ps -> Forall valid_pair ps).
Proof.
  split; [vm_compute; reflexivity|]. split; [vm_compute; reflexivity|].
  intros H; specialize (H "99 -1" 1 [(99, -1)] eq_refl).
  apply Forall_cons in H as [[H _] _]; cbn in H; lia.
Qed.

(** * Further properties *)

(** ** Arithmetic on wheel positions *)

Lemma mod37_inj (a k k' : Z) :
  -37 < k - k' < 37 -> (a + k) mod 37 = (a + k') mod 37 -> k = k'.
Proof.
  intros Hk H.
  pose proof (Z.div_mod (a + k) 37) as E1.
  pose proof (Z.div_mod (a + k') 37) as E2.
  rewrite H in E1; lia.
Qed.

Lemma range_elem (a b i : Z) : i ∈ range a b <-> a <= i < b.
Proof.
  unfold range; rewrite list_elem_of_fmap; split.
  - intros (k & -> & Hk); apply elem_of_seq in Hk; lia.
  - intros Hi; exists (Z.to_nat (i - a)); split; [lia|].
    apply elem_of_seq; lia.
Qed.

Lemma range_cons (a b : Z) : a < b -> range a b = a :: range (a + 1) b.
Proof.
  intros H; unfold range.
  replace (Z.to_nat (b - a)) with (Datatypes.S (Z.to_nat (b - (a + 1)))) by lia.
  cbn [seq map]; f_equal; [lia|].
  rewrite <- seq_shift, map_map; apply map_ext; intros k; lia.
Qed.

Lemma range_snoc (a b : Z) : a <= b -> range a (b + 1) = (range a b ++ [b])%list.
Proof.
  intros H; unfold range.
  replace (Z.to_nat (b + 1 - a)) with (Z.to_nat (b - a) + 1)%nat by lia.
  rewrite seq_app, map_app; cbn [seq map]; do 2 f_equal; lia.
Qed.

Lemma wheel_lookup_position (n : Z) (j : nat) :
  0 <= n <= 36 -> wheel !! j = Some n -> j = Z.to_nat (position n).
Proof.
  intros Hn Hj; destruct (position_spec n Hn) as (_ & _ & Hp).
  exact (NoDup_lookup _ _ _ _ wheel_NoDup Hj Hp).
Qed.

Lemma wheel_lookup_range (j : nat) (x : Z) : wheel !! j = Some x -> 0 <= x <= 36.
Proof.
  intros H; apply wheel_contains, contains_elem_of.
  by apply list_elem_of_lookup_2 in H.
Qed.

Lemma wheel_at_mod (a : Z) :
  wheel !! Z.to_nat (a mod 37) = Some (nth (Z.to_nat (a mod 37)) wheel 0).
Proof.
  assert (0 <= a mod 37 < 37) as Hj by (apply Z.mod_pos_bound; lia).
  destruct (nth_lookup_or_length wheel (Z.to_nat (a mod 37)) 0) as [->|Hge];
    [done|].
  rewrite wheel_length in Hge; lia.
Qed.

Lemma neighbors_elem (n r x : Z) :
  x ∈ neighbors n r <->
  exists i, - r <= i <= r /\ wheel !! Z.to_nat ((position n + i) mod 37) = Some x.
Proof.
  unfold neighbors; rewrite list_elem_of_fmap; split.
  - intros (i & -> & Hi); apply range_elem in Hi.
    exists i; split; [lia|apply wheel_at_mod].
  - intros (i & Hi & Hx); exists i; split; [|apply range_elem; lia].
    rewrite wheel_at_mod in Hx; by injection Hx.
Qed.

Lemma neighbors_in_wheel (n r x : Z) : x ∈ neighbors n r -> 0 <= x <= 36.
Proof.
  intros H; apply neighbors_elem in H as (i & _ & Hx).
  by apply wheel_lookup_range in Hx.
Qed.

Lemma single_lookup (n r : Z) (m : gmap Z (list Z)) (l : list Z) :
  roulette_neighbors [(n, r)] = Ok m -> m !! n = Some l ->
  (0 <= n <= 36 /\ 0 <= r) /\ l = neighbors n r.
Proof.
  intros Hm Hl; apply roulette_neighbors_ok in Hm as [Hv ->].
  apply Forall_cons in Hv as [Hv _]; split; [exact Hv|].
  unfold store_all in Hl; cbn [foldl fst snd] in Hl.
  rewrite lookup_insert_eq in Hl; by injection Hl.
Qed.

Lemma store_all_lookup_Some (pairs : list (Z * Z)) (m0 : gmap Z (list Z))
    (n : Z) (l : list Z) :
  store_all m0 pairs !! n = Some l ->
  m0 !! n = Some l \/ exists r, (n, r) ∈ pairs /\ l = neighbors n r.
Proof.
  revert m0; induction pairs as [|[k r] pairs IH]; intros m0 H; [by left|].
  change (store_all (<[k := neighbors k r]> m0) pairs !! n = Some l) in H.
  apply IH in H as [H|(r' & Hin & ->)].
  - rewrite lookup_insert in H; case_decide as E; [|by left].
    subst k; injection H as <-; right; exists r; split; [|done].
    apply elem_of_cons; by left.
  - right; exists r'; split; [|done]. apply elem_of_cons; by right.
Qed.

Lemma neighbors_centre (n r : Z) :
  0 <= n <= 36 -> 0 <= r -> neighbors n r !! Z.to_nat r = Some n.
Proof.
  intros Hn Hr; rewrite neighbors_lookup by lia.
  replace (position n - r + Z.of_nat (Z.to_nat r)) with (position n) by lia.
  destruct (position_spec n Hn) as (_ & Hp & Hl).
  by rewrite Z.mod_small.
Qed.

Lemma position_unique (n i : Z) :
  0 <= n <= 36 -> list_index wheel n = Ok i -> i = position n.
Proof.
  intros Hn Hi; destruct (position_spec n Hn) as (Hp & _).
  rewrite Hp in Hi; by injection Hi.
Qed.

Lemma first_invalid_pair (pairs : list (Z * Z)) :
  Forall valid_pair pairs
  \/ exists pre n r post,
       pairs = (pre ++ (n, r) :: post)%list
       /\ Forall valid_pair pre /\ ~ valid_pair (n, r).
Proof.
  induction pairs as [|[n r] pairs IH]; [left; constructor|].
  destruct (valid_pair_dec (n, r)) as [Hv|Hnv].
  - destruct IH as [IH|(pre & n' & r' & post & -> & Hpre & Hn')].
    + left; by constructor.
    + right; exists ((n, r) :: pre), n', r', post.
      split; [done|]. split; [by constructor|done].
  - right; exists [], n, r, pairs; split; [done|]. split; [constructor|done].
Qed.

(** ** More about [roulette_neighbors] *)

(** X1. Entry [k] of the list built for [(n, r)] is the wheel entry
    [k - r] places from [n], counted modulo 37: the list is the wheel
    read from [r] places before [n] to [r] places after it. *)
Theorem neighbor_at_offset (n r k i : Z) (m : gmap Z (list Z)) (l : list Z) :
  roulette_neighbors [(n, r)] = Ok m -> m !! n = Some l ->
  list_index wheel n = Ok i -> 0 <= k <= 2 * r ->
  is_Some (l !! Z.to_nat k)
  /\ l !! Z.to_nat k = wheel !! Z.to_nat ((i - r + k) mod 37).
Proof.
  intros Hm Hl Hi Hk.
  destruct (single_lookup _ _ _ _ Hm Hl) as [[Hn Hr] ->].
  rewrite (position_unique n i Hn Hi).
  assert (neighbors n r !! Z.to_nat k
          = wheel !! Z.to_nat ((position n - r + k) mod 37)) as E.
  { rewrite neighbors_lookup by lia. do 3 f_equal; lia. }
  split; [|exact E].
  rewrite E, wheel_at_mod; eauto.
Qed.

Lemma neighbor_at_offset_witness :
  is_Some ([3; 26; 0; 32; 15] !! Z.to_nat 4)
  /\ [3; 26; 0; 32; 15] !! Z.to_nat 4 = wheel !! Z.to_nat ((0 - 2 + 4) mod 37).
Proof.
  apply (neighbor_at_offset 0 2 4 0 {[0 := [3; 26; 0; 32; 15]]});
    [vm_compute; reflexivity | vm_compute; reflexivity
    | vm_compute; reflexivity | lia].
Defined.

(** X2. In every mapping [roulette_neighbors] returns, the list under
    a key [n] comes from an input pair [(n, r)]: it has [2*r+1]
    entries, [n] in the middle, and holds wheel numbers only. *)
Theorem every_entry_is_a_neighbourhood (pairs : list (Z * Z))
    (m : gmap Z (list Z)) (n : Z) (l : list Z) :
  roulette_neighbors pairs = Ok m -> m !! n = Some l ->
  exists r, (n, r) ∈ pairs /\ 0 <= r /\ len l = 2 * r + 1
            /\ l !! Z.to_nat r = Some n
            /\ forall x, x ∈ l -> x ∈ wheel.
Proof.
  intros Hm Hl; apply roulette_neighbors_ok in Hm as [Hv ->].
  apply store_all_lookup_Some in Hl as [Hl|(r & Hin & ->)];
    [by rewrite lookup_empty in Hl|].
  rewrite Forall_forall in Hv; destruct (Hv _ Hin) as [Hn Hr]; cbn in Hn, Hr.
  exists r; split; [done|]. split; [done|].
  split; [unfold len; rewrite neighbors_length by done; lia|].
  split; [by apply neighbors_centre|].
  intros x Hx; by apply contains_elem_of, wheel_contains, (neighbors_in_wheel n r).
Qed.

Lemma every_entry_is_a_neighbourhood_witness :
  exists r, (3, r) ∈ [(8, 1); (3, 0)] /\ 0 <= r /\ len [3] = 2 * r + 1
            /\ [3] !! Z.to_nat r = Some 3
            /\ forall x, x ∈ [3] -> x ∈ wheel.
Proof.
  apply (every_entry_is_a_neighbourhood [(8, 1); (3, 0)]
           {[8 := [30; 8; 23]; 3 := [3]]} 3 [3]);
    vm_compute; reflexivity.
Defined.

Lemma neighbors_NoDup (n r : Z) : 0 <= r <= 18 -> NoDup (neighbors n r).
Proof.
  intros Hr; apply NoDup_alt; intros j j' x Hj Hj'.
  assert (j < Z.to_nat (2 * r + 1))%nat as Hlt
    by (rewrite <- (neighbors_length n r) by lia; by eapply lookup_lt_Some).
  assert (j' < Z.to_nat (2 * r + 1))%nat as Hlt'
    by (rewrite <- (neighbors_length n r) by lia; by eapply lookup_lt_Some).
  rewrite neighbors_lookup in Hj, Hj' by done.
  pose proof (NoDup_lookup _ _ _ _ wheel_NoDup Hj Hj') as E.
  assert (0 <= (position n - r + Z.of_nat j) mod 37 < 37)
    by (apply Z.mod_pos_bound; lia).
  assert (0 <= (position n - r + Z.of_nat j') mod 37 < 37)
    by (apply Z.mod_pos_bound; lia).
  apply Z2Nat.inj in E; [|lia|lia].
  apply mod37_inj in E; lia.
Qed.

(** X3. The list built for [(n, r)] has no repeated number exactly
    when [r <= 18], that is when its [2*r+1] entries fit on the
    wheel. *)
Theorem no_repeat_up_to_18 (n r : Z) (m : gmap Z (list Z)) (l : list Z) :
  roulette_neighbors [(n, r)] = Ok m -> m !! n = Some l ->
  (NoDup l <-> r <= 18).
Proof.
  intros Hm Hl; destruct (single_lookup _ _ _ _ Hm Hl) as [[Hn Hr] ->].
  split.
  - intros Hnd.
    assert (length (neighbors n r) <= length wheel)%nat as Hle.
    { apply NoDup_incl_length; [by apply NoDup_ListNoDup|].
      intros x Hx; apply list_elem_of_In in Hx.
      by apply list_elem_of_In, contains_elem_of, wheel_contains,
        (neighbors_in_wheel n r). }
    rewrite neighbors_length, wheel_length in Hle by done; lia.
  - intros Hr18; apply neighbors_NoDup; lia.
Qed.

Lemma no_repeat_up_to_18_witness : NoDup [26; 0; 32] <-> 1 <= 18.
Proof.
  apply (no_repeat_up_to_18 0 1 {[0 := [26; 0; 32]]});
    vm_compute; reflexivity.
Defined.

(** X4. The list built for [(n, r)] holds every number of the wheel
    exactly when [r >= 18]. *)
Theorem whole_wheel_from_18 (n r : Z) (m : gmap Z (list Z)) (l : list Z) :
  roulette_neighbors [(n, r)] = Ok m -> m !! n = Some l ->
  ((forall x, x ∈ wheel -> x ∈ l) <-> 18 <= r).
Proof.
  intros Hm Hl; destruct (single_lookup _ _ _ _ Hm Hl) as [[Hn Hr] ->].
  split.
  - intros Hall.
    assert (length wheel <= length (neighbors n r))%nat as Hle.
    { apply NoDup_incl_length; [apply NoDup_ListNoDup, wheel_NoDup|].
      intros x Hx; apply list_elem_of_In in Hx.
      by apply list_elem_of_In, Hall. }
    rewrite neighbors_length, wheel_length in Hle by done; lia.
  - intros Hr18 x Hx; apply contains_elem_of, wheel_contains in Hx.
    destruct (position_spec x Hx) as (_ & Hpx & Hlx).
    destruct (position_spec n Hn) as (_ & Hpn & _).
    apply neighbors_elem.
    exists ((position x - position n + r) mod 37 - r).
    assert (0 <= (position x - position n + r) mod 37 < 37) as Hb
      by (apply Z.mod_pos_bound; lia).
    split; [lia|].
    replace (position n + ((position x - position n + r) mod 37 - r))
      with ((position x - position n + r) mod 37 + (position n - r)) by lia.
    rewrite Zplus_mod_idemp_l.
    replace (position x - position n + r + (position n - r))
      with (position x) by lia.
    by rewrite Z.mod_small.
Qed.

Lemma whole_wheel_from_18_witness :
  (forall x, x ∈ wheel -> x ∈ [26; 0; 32]) <-> 18 <= 1.
Proof.
  apply (whole_wheel_from_18 0 1 {[0 := [26; 0; 32]]});
    vm_compute; reflexivity.
Defined.

Lemma store_all_union (pairs : list (Z * Z)) (m : gmap Z (list Z)) :
  store_all m pairs = store_all ∅ pairs ∪ m.
Proof.
  revert m; induction pairs as [|[k r] pairs IH]; intros m.
  - cbn; by rewrite (left_id_L ∅ (∪)).
  - change (store_all (<[k := neighbors k r]> m) pairs
            = store_all (<[k := neighbors k r]> ∅) pairs ∪ m).
    rewrite (IH (<[k := neighbors k r]> m)), (IH (<[k := neighbors k r]> ∅)).
    rewrite <- (assoc_L (∪)); f_equal.
    by rewrite insert_union_singleton_l, insert_empty.
Qed.

Lemma roulette_neighbors_first_invalid (pre post : list (Z * Z)) (n r : Z) :
  Forall valid_pair pre -> ~ valid_pair (n, r) ->
  roulette_neighbors (pre ++ (n, r) :: post)%list
  = Raise (ValueError (if contains n wheel then negative_count_msg n
                       else invalid_number_msg n)).
Proof.
  intros Hpre Hnv; unfold roulette_neighbors.
  by rewrite (for_each_first_invalid pre post n r _ initial_inv Hpre Hnv).
Qed.

(** X5. Raising the radius by one keeps the list and adds one wheel
    entry in front and one behind: the entries [r+1] places before and
    after [n]. *)
Theorem radius_grows_at_both_ends (n r i : Z) (m m' : gmap Z (list Z))
    (l l' : list Z) :
  roulette_neighbors [(n, r)] = Ok m -> m !! n = Some l ->
  roulette_neighbors [(n, r + 1)] = Ok m' -> m' !! n = Some l' ->
  list_index wheel n = Ok i ->
  exists a b, l' = (a :: l ++ [b])%list
    /\ wheel !! Z.to_nat ((i - (r + 1)) mod 37) = Some a
    /\ wheel !! Z.to_nat ((i + (r + 1)) mod 37) = Some b.
Proof.
  intros Hm Hl Hm' Hl' Hi.
  destruct (single_lookup _ _ _ _ Hm Hl) as [[Hn Hr] ->].
  destruct (single_lookup _ _ _ _ Hm' Hl') as [_ ->].
  rewrite (position_unique n i Hn Hi).
  exists (nth (Z.to_nat ((position n - (r + 1)) mod 37)) wheel 0),
         (nth (Z.to_nat ((position n + (r + 1)) mod 37)) wheel 0).
  split; [|split; apply wheel_at_mod].
  unfold neighbors.
  rewrite (range_cons (- (r + 1))) by lia.
  replace (- (r + 1) + 1) with (- r) by lia.
  replace (r + 1 + 1) with ((r + 1) + 1) by lia.
  rewrite (range_snoc (- r) (r + 1)) by lia.
  rewrite map_cons, map_app; cbn [map].
  by replace (position n + - (r + 1)) with (position n - (r + 1)) by lia.
Qed.

Lemma radius_grows_at_both_ends_witness :
  exists a b, [3; 26; 0; 32; 15] = (a :: [26; 0; 32] ++ [b])%list
    /\ wheel !! Z.to_nat ((0 - (1 + 1)) mod 37) = Some a
    /\ wheel !! Z.to_nat ((0 + (1 + 1)) mod 37) = Some b.
Proof.
  apply (radius_grows_at_both_ends 0 1 0 {[0 := [26; 0; 32]]}
           {[0 := [3; 26; 0; 32; 15]]});
    vm_compute; reflexivity.
Defined.

(** X6. Resolving two lists one after the other in one call: an error
    of the first list is the error of the whole, otherwise an error of
    the second is, and when both succeed the result is the second
    mapping laid over the first. *)
Theorem resolve_concatenation (pairs1 pairs2 : list (Z * Z)) :
  match roulette_neighbors pairs1, roulette_neighbors pairs2 with
  | Raise e, _ => roulette_neighbors (pairs1 ++ pairs2)%list = Raise e
  | Ok _, Raise e => roulette_neighbors (pairs1 ++ pairs2)%list = Raise e
  | Ok m1, Ok m2 => roulette_neighbors (pairs1 ++ pairs2)%list = Ok (m2 ∪ m1)
  end.
Proof.
  destruct (first_invalid_pair pairs1)
    as [H1|(pre & n & r & post & -> & Hpre & Hnv)].
  - rewrite (roulette_neighbors_valid _ H1).
    destruct (first_invalid_pair pairs2)
      as [H2|(pre & n & r & post & -> & Hpre & Hnv)].
    + rewrite (roulette_neighbors_valid _ H2).
      rewrite roulette_neighbors_valid by (by apply Forall_app).
      by rewrite store_all_app, store_all_union.
    + rewrite (roulette_neighbors_first_invalid _ _ _ _ Hpre Hnv).
      rewrite app_assoc.
      apply roulette_neighbors_first_invalid; [by apply Forall_app|done].
  - rewrite (roulette_neighbors_first_invalid _ _ _ _ Hpre Hnv).
    rewrite <- app_assoc, <- app_comm_cons.
    by apply roulette_neighbors_first_invalid.
Qed.

(** X7. Being a neighbour within radius [r] is symmetric: [k] is in
    the list built for [(n, r)] exactly when [n] is in the list built
    for [(k, r)]. *)
Theorem neighbour_symmetric (n k r : Z) (m m' : gmap Z (list Z))
    (l l' : list Z) :
  roulette_neighbors [(n, r)] = Ok m -> m !! n = Some l ->
  roulette_neighbors [(k, r)] = Ok m' -> m' !! k = Some l' ->
  (k ∈ l <-> n ∈ l').
Proof.
  intros Hm Hl Hm' Hl'.
  destruct (single_lookup _ _ _ _ Hm Hl) as [[Hn Hr] ->].
  destruct (single_lookup _ _ _ _ Hm' Hl') as [[Hk _] ->].
  assert (forall a b, 0 <= a <= 36 -> 0 <= b <= 36 ->
            b ∈ neighbors a r -> a ∈ neighbors b r) as Hsym.
  { intros a b Ha Hb Hin; apply neighbors_elem in Hin as (i & Hi & Hx).
    apply (wheel_lookup_position b _ Hb) in Hx.
    destruct (position_spec a Ha) as (_ & Hpa & Hla).
    destruct (position_spec b Hb) as (_ & Hpb & _).
    assert (0 <= (position a + i) mod 37 < 37) by (apply Z.mod_pos_bound; lia).
    apply Z2Nat.inj in Hx; [|lia|lia].
    apply neighbors_elem; exists (- i); split; [lia|].
    rewrite <- Hx, Zplus_mod_idemp_l.
    replace (position a + i + - i) with (position a) by lia.
    by rewrite Z.mod_small. }
  split; by apply Hsym.
Qed.

Lemma neighbour_symmetric_witness : 32 ∈ [26; 0; 32] <-> 0 ∈ [0; 32; 15].
Proof.
  apply (neighbour_symmetric 0 32 1 {[0 := [26; 0; 32]]}
           {[32 := [0; 32; 15]]});
    vm_compute; reflexivity.
Defined.

(** X9. When no number is asked for twice, the order of the pairs does
    not matter: any rearrangement of the input gives the same
    mapping. *)
Theorem pair_order_irrelevant (pairs pairs' : list (Z * Z))
    (m : gmap Z (list Z)) :
  roulette_neighbors pairs = Ok m -> pairs ≡ₚ pairs' -> NoDup pairs.*1 ->
  roulette_neighbors pairs' = Ok m.
Proof.
  intros Hm Hperm Hnd; apply roulette_neighbors_ok in Hm as [Hv ->].
  rewrite roulette_neighbors_valid by (by rewrite <- Hperm).
  f_equal; apply map_eq; intros k.
  assert (forall ps : list (Z * Z), NoDup ps.*1 ->
            forall r, (k, r) ∈ ps ->
            store_all ∅ ps !! k = Some (neighbors k r)) as Hin.
  { intros ps Hps r Hr; apply list_elem_of_split in Hr as (pre & post & ->).
    apply store_all_lookup_last.
    rewrite fmap_app, fmap_cons in Hps; apply NoDup_app in Hps as (_ & _ & Hps).
    by apply NoDup_cons in Hps as [Hps _]. }
  destruct (store_all ∅ pairs !! k) as [l|] eqn:E.
  - apply store_all_lookup_Some in E as [E|(r & Hr & ->)];
      [by rewrite lookup_empty in E|].
    apply Hin; [by rewrite <- Hperm|by rewrite <- Hperm].
  - destruct (store_all ∅ pairs' !! k) as [l|] eqn:E'; [|done].
    apply store_all_lookup_Some in E' as [E'|(r & Hr & ->)];
      [by rewrite lookup_empty in E'|].
    rewrite <- Hperm in Hr; by rewrite (Hin pairs Hnd r Hr) in E.
Qed.

Lemma pair_order_irrelevant_witness :
  roulette_neighbors [(3, 0); (0, 1)] = Ok {[0 := [26; 0; 32]; 3 := [3]]}.
Proof.
  apply (pair_order_irrelevant [(0, 1); (3, 0)]).
  - vm_compute; reflexivity.
  - apply perm_swap.
  - apply (bool_decide_unpack _); vm_compute; reflexivity.
Defined.

(** ** More about [parse_input] *)

Lemma split_sep_nonempty (sep : ascii) (s : string) : split_sep sep s <> [].
Proof.
  destruct s as [|c s]; cbn [split_sep]; [done|].
  destruct (Ascii.eqb c sep); [done|]. by destruct (split_sep sep s).
Qed.

Lemma split_sep_length (sep : ascii) (s : string) :
  length (split_sep sep s) = Datatypes.S (count_char sep s).
Proof.
  induction s as [|c s IH]; cbn [split_sep count_char]; [done|].
  destruct (Ascii.eqb c sep); cbn [length]; [by rewrite IH|].
  pose proof (split_sep_nonempty sep s) as Hne.
  by destruct (split_sep sep s).
Qed.

Lemma append_nil_l (s : string) : "" ++ s = s.
Proof. reflexivity. Qed.

Lemma append_cons (c : ascii) (s t : string) :
  String c s ++ t = String c (s ++ t).
Proof. reflexivity. Qed.

Lemma append_nil_r (s : string) : s ++ "" = s.
Proof. induction s as [|c s IH]; [done|]. by rewrite append_cons, IH. Qed.

Lemma append_assoc (s t u : string) : (s ++ t) ++ u = s ++ (t ++ u).
Proof. induction s as [|c s IH]; [done|]. by rewrite !append_cons, IH. Qed.

Lemma split_sep_app (sep : ascii) (s1 s2 : string) :
  split_sep sep (s1 ++ String sep s2)
  = (split_sep sep s1 ++ split_sep sep s2)%list.
Proof.
  induction s1 as [|c s1 IH];
    rewrite ?append_nil_l, ?append_cons; cbn [split_sep].
  - by rewrite Ascii.eqb_refl.
  - destruct (Ascii.eqb c sep); [by rewrite IH|].
    rewrite IH; pose proof (split_sep_nonempty sep s1) as Hne.
    by destruct (split_sep sep s1).
Qed.

Lemma segment_yields_default (d d' : Z) (seg : string) (p : Z * Z) :
  segment_yields d seg p ->
  exists p', segment_yields d' seg p' /\ p'.1 = p.1
             /\ match split (strip seg) with
                | [_] => p.2 = d /\ p'.2 = d'
                | _ => p'.2 = p.2
                end.
Proof.
  unfold segment_yields.
  destruct (split (strip seg)) as [|t0 [|t1 [|t2 ts]]]; try done.
  - intros [Hn Hd]; exists (p.1, d'); cbn; auto.
  - intros [Hn Hr]; exists p; auto.
Qed.

Lemma parse_body_raise_default (d d' : Z) (acc acc' : list (Z * Z))
    (seg : string) (e : exn) :
  parse_body d acc seg = Raise e -> parse_body d' acc' seg = Raise e.
Proof.
  unfold parse_body.
  destruct (split (strip seg)) as [|t0 [|t1 [|t2 ts]]]; try done.
  - by destruct (int (strip t0)).
  - by destruct (int (strip t0)), (int (strip t1)).
Qed.

Lemma parse_loop_raise_default (d d' : Z) (segs : list string)
    (acc acc' : list (Z * Z)) (e : exn) :
  for_each (parse_body d) segs acc = Raise e ->
  for_each (parse_body d') segs acc' = Raise e.
Proof.
  revert acc acc'; induction segs as [|seg segs IH]; intros acc acc';
    cbn [for_each]; [discriminate|].
  destruct (parse_body d acc seg) as [acc1|e1] eqn:E; cbn [bind].
  - apply parse_body_ok in E as (p & Hp & ->).
    destruct (segment_yields_default d d' seg p Hp) as (p' & Hp' & _).
    assert (parse_body d' acc' seg = Ok (acc' ++ [p'])%list) as ->
      by (apply parse_body_ok; eauto).
    cbn [bind]; apply IH.
  - intros [= <-].
    by rewrite (parse_body_raise_default d d' acc acc' seg e1 E).
Qed.

(** X10. A successful [parse_input] returns one pair more than the
    text has commas; in particular it never returns an empty list. *)
Theorem one_pair_per_comma (s : string) (d : Z) (ps : list (Z * Z)) :
  parse_input s d = Ok ps ->
  length ps = Datatypes.S (count_char "," s) /\ ps <> [].
Proof.
  intros H; apply parse_input_ok, Forall2_length in H.
  rewrite split_sep_length in H; split; [done|].
  intros ->; discriminate.
Qed.

Lemma one_pair_per_comma_witness :
  length [(3, 3); (8, 1); (12, 1)] = Datatypes.S (count_char "," "3 3, 8 1, 12")
  /\ [(3, 3); (8, 1); (12, 1)] <> [].
Proof. apply (one_pair_per_comma "3 3, 8 1, 12" 1); vm_compute; reflexivity. Defined.

(** X11. A segment without any token makes [parse_input] fail: the
    empty text fails with the "Invalid format" error for [''], and so
    does every text with a blank segment, such as one that ends in a
    comma. *)
Theorem blank_segment_rejected :
  (forall d : Z, parse_input "" d = Raise (ValueError (invalid_format_msg "")))
  /\ (forall (s : string) (d : Z) (seg : string),
        seg ∈ split_sep "," s -> split (strip seg) = [] ->
        exists e, parse_input s d = Raise e)
  /\ (forall (s : string) (d : Z), exists e, parse_input (s ++ ",") d = Raise e).
Proof.
  assert (forall (s : string) (d : Z) (seg : string),
            seg ∈ split_sep "," s -> split (strip seg) = [] ->
            exists e, parse_input s d = Raise e) as Hblank.
  { intros s d seg Hin Hsplit.
    destruct (parse_input s d) as [ps|e] eqn:E; [|by exists e].
    apply parse_input_ok in E.
    apply list_elem_of_lookup_1 in Hin as [i Hi].
    destruct (Forall2_lookup_l _ _ _ _ _ E Hi) as (p & _ & Hp).
    unfold segment_yields in Hp; by rewrite Hsplit in Hp. }
  split; [reflexivity|]. split; [exact Hblank|].
  intros s d; apply (Hblank _ d ""); [|reflexivity].
  change (s ++ ",") with (s ++ String "," ""); rewrite split_sep_app.
  apply elem_of_app; right; cbn; apply elem_of_cons; by left.
Qed.

Lemma blank_segment_rejected_witness :
  exists e, parse_input "4 1,  ,7" 1 = Raise e.
Proof.
  apply (proj1 (proj2 blank_segment_rejected) "4 1,  ,7" 1 "  ");
    [|reflexivity].
  vm_compute; apply elem_of_cons; right; apply elem_of_cons; by left.
Defined.

(** X12. [default_neighbors] only fills in the count of the one-token
    segments: with another default the same texts are accepted, and
    segment by segment the number is the same, the count of a
    one-token segment is the default of each run, and the count of any
    other segment is the same in both; a rejected text is rejected
    with the same error. *)
Theorem default_only_fills_in (s : string) (d d' : Z) :
  match parse_input s d with
  | Ok ps =>
      exists ps', parse_input s d' = Ok ps'
        /\ Forall3 (fun seg p p' =>
                      p'.1 = p.1
                      /\ match split (strip seg) with
                         | [_] => p.2 = d /\ p'.2 = d'
                         | _ => p'.2 = p.2
                         end) (split_sep "," s) ps ps'
  | Raise e => parse_input s d' = Raise e
  end.
Proof.
  destruct (parse_input s d) as [ps|e] eqn:E.
  - apply parse_input_ok in E.
    assert (exists ps', Forall2 (segment_yields d') (split_sep "," s) ps'
              /\ Forall3 (fun seg p p' =>
                            p'.1 = p.1
                            /\ match split (strip seg) with
                               | [_] => p.2 = d /\ p'.2 = d'
                               | _ => p'.2 = p.2
                               end) (split_sep "," s) ps ps')
      as (ps' & H1 & H2).
    { induction E as [|seg p segs ps Hp _ (ps' & H1 & H2)].
      - exists []; split; constructor.
      - destruct (segment_yields_default d d' seg p Hp) as (p' & Hp' & E1 & E2).
        exists (p' :: ps'); split; [by constructor|by constructor]. }
    exists ps'; split; [by apply parse_input_ok|done].
  - by apply (parse_loop_raise_default d d' _ [] []).
Qed.

(** ** Writing integers and reading them back *)

Lemma int_digits_acc (u : Decimal.uint) (p : positive) :
  int_digits (NilEmpty.string_of_uint u) AfterDigit (Z.pos p)
  = Some (Z.pos (Pos.of_uint_acc u p)).
Proof.
  revert p; induction u as [|u IH|u IH|u IH|u IH|u IH|u IH|u IH|u IH|u IH|u IH];
    intros p; cbn [NilEmpty.string_of_uint int_digits Pos.of_uint_acc];
    [reflexivity|..];
    match goal with
    | |- context [digit_value ?c] =>
        let v := eval vm_compute in (digit_value c) in
        change (digit_value c) with v
    end; cbv iota beta; rewrite <- IH; f_equal; lia.
Qed.

Lemma int_digits_uint (u : Decimal.uint) :
  int_digits (NilEmpty.string_of_uint u) AfterDigit 0
  = Some (Z.of_N (Pos.of_uint u)).
Proof.
  induction u as [|u IH|u IH|u IH|u IH|u IH|u IH|u IH|u IH|u IH|u IH];
    cbn [NilEmpty.string_of_uint int_digits Pos.of_uint];
    [reflexivity|..];
    match goal with
    | |- context [digit_value ?c] =>
        let v := eval vm_compute in (digit_value c) in
        change (digit_value c) with v
    end; cbv iota beta; [exact IH|..];
    match goal with
    | |- int_digits _ _ ?a = _ =>
        let v := eval vm_compute in a in change a with v
    end; by rewrite int_digits_acc.
Qed.

Lemma int_of_uint_string (u : Decimal.uint) :
  u <> Decimal.Nil ->
  int_literal (NilEmpty.string_of_uint u) = Some (Z.of_N (Pos.of_uint u))
  /\ int_literal (String "-" (NilEmpty.string_of_uint u))
     = Some (- Z.of_N (Pos.of_uint u)).
Proof.
  intros Hu.
  assert (int_digits (NilEmpty.string_of_uint u) AtStart 0
          = Some (Z.of_N (Pos.of_uint u))) as Hstart
    by (rewrite <- int_digits_uint; destruct u; [done|..]; reflexivity).
  split.
  - rewrite <- Hstart; destruct u; [done|..]; reflexivity.
  - change (Z.opp <$> int_digits (NilEmpty.string_of_uint u) AtStart 0
            = Some (- Z.of_N (Pos.of_uint u))).
    by rewrite Hstart.
Qed.

Lemma int_literal_str (n : Z) : int_literal (str n) = Some n.
Proof.
  destruct n as [|p|p]; [reflexivity|..]; unfold str;
    cbn [Z.to_int NilZero.string_of_int];
    pose proof (DecimalPos.Unsigned.to_uint_nonnil p) as Hu;
    pose proof (DecimalPos.Unsigned.of_to p) as Hp;
    destruct (int_of_uint_string _ Hu) as [H1 H2];
    rewrite Hp in H1, H2.
  - unfold NilZero.string_of_uint.
    destruct (Pos.to_uint p) eqn:E; [done|..]; exact H1.
  - unfold NilZero.string_of_uint.
    destruct (Pos.to_uint p) eqn:E; [done|..]; exact H2.
Qed.

Lemma digit_count_le_length (s : string) :
  (digit_count s <= String.length s)%nat.
Proof.
  induction s as [|c s IH]; cbn [digit_count String.length]; [lia|].
  destruct (digit_value c); lia.
Qed.

Lemma int_str (n : Z) : short_numeral n -> int (str n) = Some n.
Proof.
  unfold short_numeral, int; intros H.
  pose proof (digit_count_le_length (str n)) as Hle.
  destruct (Nat.ltb_spec int_max_str_digits (digit_count (str n))); [lia|].
  apply int_literal_str.
Qed.

Lemma wheel_number_short (n : Z) : 0 <= n <= 36 -> short_numeral n.
Proof.
  intros H.
  assert (exists k, (k < 37)%nat /\ n = Z.of_nat k) as (k & Hk & ->)
    by (exists (Z.to_nat n); lia).
  clear H; unfold short_numeral.
  do 37 (destruct k as [|k]; [apply Nat.leb_le; vm_compute; reflexivity|]); lia.
Qed.

Lemma all_chars_app (P : ascii -> bool) (s t : string) :
  all_chars P (s ++ t) = all_chars P s && all_chars P t.
Proof.
  induction s as [|c s IH]; [done|].
  rewrite append_cons; cbn [all_chars]; by rewrite IH, andb_assoc.
Qed.

Lemma uint_string_chars (u : Decimal.uint) :
  no_space (NilEmpty.string_of_uint u) = true
  /\ no_comma (NilEmpty.string_of_uint u) = true.
Proof.
  unfold no_space, no_comma.
  induction u as [|u [IH1 IH2]|u [IH1 IH2]|u [IH1 IH2]|u [IH1 IH2]|u [IH1 IH2]
                  |u [IH1 IH2]|u [IH1 IH2]|u [IH1 IH2]|u [IH1 IH2]|u [IH1 IH2]];
    cbn [NilEmpty.string_of_uint all_chars]; [done|..];
    rewrite IH1, IH2; split; reflexivity.
Qed.

Lemma str_chars (n : Z) :
  no_space (str n) = true /\ no_comma (str n) = true /\ str n <> "".
Proof.
  destruct n as [|p|p]; [repeat split; done|..]; unfold str;
    cbn [Z.to_int NilZero.string_of_int];
    pose proof (DecimalPos.Unsigned.to_uint_nonnil p) as Hu;
    destruct (uint_string_chars (Pos.to_uint p)) as [H1 H2];
    unfold NilZero.string_of_uint;
    destruct (Pos.to_uint p) eqn:E; try done.
  all: unfold no_space, no_comma in *; cbn [all_chars];
    rewrite H1, H2; repeat split; done.
Qed.

Lemma lstrip_token (t s : string) :
  no_space t = true -> t <> "" -> lstrip (t ++ s) = t ++ s.
Proof.
  destruct t as [|c t]; [done|]; intros H _.
  unfold no_space in H; cbn [all_chars] in H.
  apply andb_prop in H as [Hc _]; apply negb_true_iff in Hc.
  rewrite append_cons; cbn [lstrip]; by rewrite Hc.
Qed.

Lemma rstrip_token (t : string) :
  no_space t = true -> rstrip t = t.
Proof.
  unfold no_space; induction t as [|c t IH]; [done|]; cbn [all_chars rstrip].
  intros H; apply andb_prop in H as [Hc Ht]; apply negb_true_iff in Hc.
  rewrite (IH Ht), Hc; by destruct t.
Qed.

Lemma rstrip_app_token (s t : string) :
  no_space t = true -> t <> "" -> rstrip (s ++ t) = s ++ t.
Proof.
  intros Ht Hne; induction s as [|c s IH].
  - rewrite append_nil_l; by apply rstrip_token.
  - rewrite append_cons; cbn [rstrip]; rewrite IH.
    destruct (s ++ t) eqn:E; [|done].
    destruct s; [by rewrite append_nil_l in E|by rewrite append_cons in E].
Qed.

Lemma split_go_token (t rest cur : string) :
  no_space t = true -> split_go (t ++ rest) cur = split_go rest (cur ++ t).
Proof.
  unfold no_space; revert cur; induction t as [|c t IH]; intros cur.
  - by rewrite append_nil_l, append_nil_r.
  - cbn [all_chars]; intros H; apply andb_prop in H as [Hc Ht].
    apply negb_true_iff in Hc.
    rewrite append_cons; cbn [split_go]; rewrite Hc, (IH _ Ht).
    by rewrite append_assoc.
Qed.

Lemma split_one_token (t : string) :
  no_space t = true -> t <> "" -> split t = [t].
Proof.
  intros Ht Hne; unfold split.
  rewrite <- (append_nil_r t) at 1; rewrite (split_go_token _ _ _ Ht).
  rewrite append_nil_l; cbn [split_go]; by destruct t.
Qed.

Lemma split_two_tokens (t1 t2 : string) :
  no_space t1 = true -> t1 <> "" -> no_space t2 = true -> t2 <> "" ->
  split (t1 ++ " " ++ t2) = [t1; t2].
Proof.
  intros H1 Hne1 H2 Hne2; unfold split.
  rewrite (split_go_token _ _ _ H1), append_nil_l.
  change (" " ++ t2) with (String " " t2); cbn [split_go].
  change (isspace " ") with true; cbv iota.
  fold (split t2); rewrite (split_one_token _ H2 Hne2); by destruct t1.
Qed.

Lemma strip_request (n : Z) (o : option Z) :
  strip (format_request (n, o)) = format_request (n, o)
  /\ strip (String " " (format_request (n, o))) = format_request (n, o).
Proof.
  assert (strip (format_request (n, o)) = format_request (n, o)) as E.
  { destruct (str_chars n) as (Hs & _ & Hne); unfold strip, format_request.
    destruct o as [r|]; cbn [snd fst].
    - rewrite (lstrip_token _ _ Hs Hne).
      destruct (str_chars r) as (Hsr & _ & Hner).
      rewrite <- append_assoc; by apply rstrip_app_token.
    - rewrite <- (append_nil_r (str n)), (lstrip_token _ _ Hs Hne).
      rewrite append_nil_r; by apply rstrip_token. }
  split; [exact E|exact E].
Qed.

Lemma request_yields (d n : Z) (o : option Z) :
  writable (n, o) ->
  segment_yields d (format_request (n, o)) (n, default d o)
  /\ segment_yields d (String " " (format_request (n, o))) (n, default d o).
Proof.
  intros [Hshort Hshort']; cbn [fst snd] in Hshort, Hshort'.
  destruct (strip_request n o) as [E1 E2]; unfold segment_yields.
  rewrite E1, E2.
  assert (forall k, short_numeral k -> int (strip (str k)) = Some k) as Hint.
  { intros k Hk; destruct (str_chars k) as (Hs & _ & Hne).
    unfold strip; rewrite <- (append_nil_r (str k)).
    rewrite (lstrip_token _ _ Hs Hne), append_nil_r, (rstrip_token _ Hs).
    by apply int_str. }
  destruct (str_chars n) as (Hs & _ & Hne); unfold format_request.
  destruct o as [r|]; cbn [fst snd default].
  - destruct (str_chars r) as (Hsr & _ & Hner).
    rewrite (split_two_tokens _ _ Hs Hne Hsr Hner); cbn [fst snd].
    rewrite !Hint by done; auto.
  - rewrite (split_one_token _ Hs Hne); cbn [fst snd].
    rewrite Hint by done; auto.
Qed.

Lemma request_no_comma (q : Z * option Z) : no_comma (format_request q) = true.
Proof.
  destruct q as [n o]; unfold format_request, no_comma; cbn [fst snd].
  destruct (str_chars n) as (_ & Hn & _).
  destruct o as [r|]; [|exact Hn].
  destruct (str_chars r) as (_ & Hr & _).
  rewrite !all_chars_app; fold (no_comma (str n)); fold (no_comma (str r)).
  by rewrite Hn, Hr.
Qed.

Lemma split_sep_no_comma (s : string) :
  no_comma s = true -> split_sep "," s = [s].
Proof.
  unfold no_comma; induction s as [|c s IH]; [done|]; cbn [all_chars split_sep].
  intros H; apply andb_prop in H as [Hc Hs]; apply negb_true_iff in Hc.
  by rewrite Hc, (IH Hs).
Qed.

Lemma split_sep_join (x : string) (l : list string) :
  Forall (fun s => no_comma s = true) (x :: l) ->
  split_sep "," (join ", " (x :: l)) = x :: map (String " ") l.
Proof.
  revert x; induction l as [|y l IH]; intros x Hall.
  - apply Forall_cons in Hall as [Hx _]; by apply split_sep_no_comma.
  - apply Forall_cons in Hall as [Hx Hall].
    change (join ", " (x :: y :: l))
      with (x ++ String "," (String " " (join ", " (y :: l)))).
    rewrite split_sep_app, (split_sep_no_comma _ Hx).
    cbn [split_sep app]; change (Ascii.eqb " " ",") with false; cbv iota.
    by rewrite (IH y Hall).
Qed.

(** X13. What is written in the page's format is read back as it was
    meant: a non-empty list of requests, each a number with or without
    a count, every integer written in at most 4300 characters, joined
    by a comma and a blank, parses to the same numbers with their
    counts, [default_neighbors] standing in where no count was
    written. *)
Theorem parse_written_requests (requests : list (Z * option Z)) (d : Z) :
  requests <> [] -> Forall writable requests ->
  parse_input (join ", " (map format_request requests)) d
  = Ok (map (fun q => (q.1, default d q.2)) requests).
Proof.
  destruct requests as [|q qs]; [done|]; intros _ Hw.
  apply Forall_cons in Hw as [Hq Hqs].
  apply parse_input_ok; cbn [map].
  rewrite split_sep_join.
  - constructor; [destruct q; by apply request_yields|].
    induction Hqs as [|[n o] qs Hno _ IH]; cbn [map]; constructor; [|exact IH].
    by apply request_yields.
  - change (Forall (fun s => no_comma s = true) (map format_request (q :: qs))).
    apply Forall_forall; intros s Hs.
    apply list_elem_of_fmap in Hs as (q' & -> & _); apply request_no_comma.
Qed.

Lemma parse_written_requests_witness :
  parse_input (join ", " (map format_request [(3, Some 3); (-8, Some (-1)); (120, None)])) 1
  = Ok (map (fun q => (q.1, default 1 q.2)) [(3, Some 3); (-8, Some (-1)); (120, None)]).
Proof.
  apply (parse_written_requests _ 1); [discriminate|].
  repeat constructor; cbn [fst snd]; apply Nat.leb_le; vm_compute; reflexivity.
Defined.

(** ** The table *)

Lemma frame_numbers :
  omap cell_number (concat (DataFrame Plot.roulette_wheel))
  = [5; 24; 16; 33; 1; 20; 14; 31; 9; 22; 18; 29; 7; 28; 12; 35; 3;
     10; 26; 23;
     8; 30; 11; 36; 13; 27; 6; 34; 17; 25; 2; 21; 4; 19; 15; 32; 0].
Proof. vm_compute; reflexivity. Qed.

Lemma frame_numbers_wheel :
  omap cell_number (concat (DataFrame Plot.roulette_wheel)) ≡ₚ wheel.
Proof.
  apply NoDup_Permutation.
  - rewrite frame_numbers; apply (bool_decide_unpack _); vm_compute; reflexivity.
  - apply wheel_NoDup.
  - intros x; rewrite frame_numbers.
    rewrite <- (contains_elem_of x wheel), wheel_contains; split.
    + intros H; apply list_elem_of_In in H; simpl in H.
      repeat (destruct H as [<-|H]; [lia|]); contradiction.
    + intros H.
      assert (exists k, (k < 37)%nat /\ x = Z.of_nat k) as (k & Hk & ->)
        by (exists (Z.to_nat x); lia).
      clear H; apply contains_elem_of.
      do 37 (destruct k as [|k]; [reflexivity|]); lia.
Qed.

Lemma filter_cells (numbers : list Z) (cells : list cell) :
  List.filter (fun c => cell_in c numbers) cells
  = map Num (List.filter (fun n => contains n numbers) (omap cell_number cells)).
Proof.
  induction cells as [|[n|s|] cells IH]; [done|..]; simpl.
  - destruct (contains n numbers); simpl; by rewrite IH.
  - exact IH.
  - exact IH.
Qed.

Lemma filter_styled {A} (g : A -> string) (P : string -> bool) (l : list A) :
  map fst (List.filter (fun vs => P vs.2) (map (fun v => (v, g v)) l))
  = List.filter (fun v => P (g v)) l.
Proof.
  induction l as [|a l IH]; [done|]; cbn [map List.filter snd].
  destruct (P (g a)); cbn [map fst]; by rewrite IH.
Qed.

Lemma highlighted_plot (numbers : list Z) :
  highlighted (plot_roulette_table numbers)
  = map Num (List.filter (fun n => contains n numbers)
               (omap cell_number (concat (DataFrame Plot.roulette_wheel)))).
Proof.
  unfold highlighted, plot_roulette_table.
  rewrite <- concat_map.
  rewrite (filter_styled (highlight_numbers numbers)
             (fun s => String.eqb s "background-color: lightblue")).
  rewrite <- filter_cells; apply filter_ext; intros c.
  unfold highlight_numbers; by destruct (cell_in c numbers).
Qed.

Lemma highlighted_elem (numbers : list Z) (c : cell) :
  c ∈ highlighted (plot_roulette_table numbers)
  <-> exists n, c = Num n /\ n ∈ numbers /\ n ∈ wheel.
Proof.
  rewrite highlighted_plot, list_elem_of_fmap; split.
  - intros (n & -> & Hn); apply list_elem_of_In, filter_In in Hn as [Hg Hc].
    exists n; split; [done|]. split; [by apply contains_elem_of|].
    rewrite <- frame_numbers_wheel; by apply list_elem_of_In.
  - intros (n & -> & Hn & Hw); exists n; split; [done|].
    apply list_elem_of_In, filter_In; split; [|by apply contains_elem_of].
    apply list_elem_of_In; by rewrite frame_numbers_wheel.
Qed.

Lemma highlighted_NoDup (numbers : list Z) :
  NoDup (highlighted (plot_roulette_table numbers)).
Proof.
  rewrite highlighted_plot; apply NoDup_fmap_2; [by intros a b [= ->]|].
  apply NoDup_ListNoDup, List.NoDup_filter, NoDup_ListNoDup.
  rewrite frame_numbers_wheel; apply wheel_NoDup.
Qed.

(** X14. The frame that [plot_roulette_table] styles has 4 rows of 17
    cells. Its number cells are the 37 wheel numbers, each in one
    cell, and they follow the wheel around the border: bottom row from
    right to left, up the first column, top row from left to right,
    then the last number of the second row. Every other cell is a
    blank of the literal or the padding of a short row. *)
Theorem table_follows_the_wheel :
  length (DataFrame Plot.roulette_wheel) = 4%nat
  /\ Forall (fun row => length row = 17%nat) (DataFrame Plot.roulette_wheel)
  /\ NoDup (omap cell_number (concat (DataFrame Plot.roulette_wheel)))
  /\ (forall n : Z,
        Num n ∈ concat (DataFrame Plot.roulette_wheel) <-> n ∈ wheel)
  /\ Forall (fun c => is_Some (cell_number c) \/ c = Str " " \/ c = NaN)
        (concat (DataFrame Plot.roulette_wheel))
  /\ (reverse (nth 3 Plot.roulette_wheel [])
       ++ take 1 (nth 2 Plot.roulette_wheel [])
       ++ take 1 (nth 1 Plot.roulette_wheel [])
       ++ nth 0 Plot.roulette_wheel []
       ++ drop 12 (nth 1 Plot.roulette_wheel []))%list
     = map Num wheel.
Proof.
  split; [reflexivity|].
  split; [repeat constructor|].
  split; [rewrite frame_numbers_wheel; apply wheel_NoDup|].
  split.
  { intros n; rewrite <- frame_numbers_wheel, list_elem_of_omap; split.
    - intros H; by exists (Num n).
    - intros ([k|s|] & Hc & [= ->]); exact Hc. }
  split; [|vm_compute; reflexivity].
  vm_compute DataFrame; cbn [concat app].
  repeat (constructor; [first [by left; eexists | by right; left | by right; right]|]).
  constructor.
Qed.

(** X15. In the frame [plot_roulette_table] returns every cell keeps
    its value, and the lightblue cells are exactly the cells that hold
    a number of [numbers]: one cell for each wheel number in the list,
    however often the list repeats it, and never a blank or a padding
    cell. *)
Theorem highlight_marks_the_numbers (numbers : list Z) :
  map (map fst) (plot_roulette_table numbers) = DataFrame Plot.roulette_wheel
  /\ NoDup (highlighted (plot_roulette_table numbers))
  /\ forall c : cell,
       c ∈ highlighted (plot_roulette_table numbers)
       <-> exists n, c = Num n /\ n ∈ numbers /\ n ∈ wheel.
Proof.
  split; [|split; [apply highlighted_NoDup|apply highlighted_elem]].
  unfold plot_roulette_table; rewrite map_map.
  rewrite <- (map_id (DataFrame Plot.roulette_wheel)) at 2.
  apply map_ext; intros row; rewrite map_map.
  rewrite <- (map_id row) at 2; by apply map_ext.
Qed.

(** ** The page *)

Lemma main_cases :
  exists page : list st_call,
    (forall d, main d "" = Ok page)
    /\ length page = 4%nat
    /\ forall d s, s <> "" ->
         main d s = match main_try d s with
                    | Ok calls => Ok (page ++ calls)%list
                    | Raise (ValueError e) =>
                        Ok (page ++ [st_error ("Error: " ++ e)])%list
                    | Raise e => Raise e
                    end.
Proof.
  eexists; split; [reflexivity|]. split; [reflexivity|].
  intros d [|c s] H; [done|reflexivity].
Qed.

Lemma parse_input_raises_ValueError (s : string) (d : Z) (e : exn) :
  parse_input s d = Raise e -> exists msg, e = ValueError msg.
Proof.
  intros H; apply parse_loop_raise in H as (seg & _ & H).
  apply parse_body_raise_cases in H as [-> | [-> | ->]]; eauto.
Qed.



Lemma highlight_set_elem (m : gmap Z (list Z)) (x : Z) :
  x ∈ elements (list_to_set (concat (map snd (map_to_list m))) : gset Z)
  <-> exists n l, m !! n = Some l /\ x ∈ l.
Proof.
  rewrite elem_of_elements, elem_of_list_to_set, list_elem_of_In, in_concat.
  split.
  - intros (l & Hl & Hx); apply in_map_iff in Hl as ([n l'] & <- & Hp).
    apply list_elem_of_In, elem_of_map_to_list in Hp.
    exists n, l'; split; [done|by apply list_elem_of_In].
  - intros (n & l & Hl & Hx); exists l; split; [|by apply list_elem_of_In].
    apply in_map_iff; exists (n, l); split; [done|].
    by apply list_elem_of_In, elem_of_map_to_list.
Qed.



(** X18. Typing one wheel number [n] with the default count at [d]
    (the slider gives 1 or 3) shows the two tables: the first marks the
    one cell of [n], the second marks [2*d+1] cells. *)
Theorem one_number_marks_its_neighbours (n d : Z) :
  0 <= n <= 36 -> 0 <= d <= 18 ->
  exists (page : list st_call) (t1 t2 : list (list (cell * string))),
    main d "" = Ok page
    /\ main d (str n)
       = Ok (page ++ [st_subheader "Table 1: Input Numbers Only";
                      st_table t1;
                      st_subheader "Table 2: Input Numbers and Neighbors";
                      st_table t2])%list
    /\ highlighted t1 = [Num n]
    /\ length (highlighted t2) = Z.to_nat (2 * d + 1).
Proof.
  intros Hn Hd.
  destruct main_cases as (page & Hempty & _ & Hfull).
  destruct (str_chars n) as (_ & Hcomma & Hne).
  assert (parse_input (str n) d = Ok [(n, d)]) as Hp.
  { apply parse_input_ok; rewrite (split_sep_no_comma _ Hcomma).
    constructor; [|constructor].
    apply (request_yields d n None); split; [|done].
    by apply wheel_number_short. }
  assert (roulette_neighbors [(n, d)] = Ok {[n := neighbors n d]}) as Hr
    by (apply roulette_neighbors_single; lia).
  exists page; do 2 eexists; split; [apply Hempty|].
  split.
  { rewrite (Hfull d _ Hne); unfold main_try.
    rewrite Hp; cbn [bind]; rewrite Hr; cbn [bind]; reflexivity. }
  assert (n ∈ wheel) as Hw by (by apply contains_elem_of, wheel_contains).
  split.
  - apply Permutation_singleton_r, NoDup_Permutation;
      [apply highlighted_NoDup|apply NoDup_singleton|].
    intros c; rewrite highlighted_elem, list_elem_of_singleton; cbn; split.
    + intros (x & -> & Hx & _); apply list_elem_of_singleton in Hx; by subst.
    + intros ->; exists n; split; [done|].
      split; [by apply list_elem_of_singleton|done].
  - rewrite <- (neighbors_length n d) by lia.
    rewrite <- (length_map Num (neighbors n d)).
    apply Permutation_length, NoDup_Permutation;
      [apply highlighted_NoDup
      |apply NoDup_fmap_2; [by intros a b [= ->]|apply neighbors_NoDup; lia]|].
    intros c; rewrite highlighted_elem, list_elem_of_fmap; split.
    + intros (x & -> & Hx & _); exists x; split; [done|].
      apply highlight_set_elem in Hx as (k & l & Hl & Hx).
      apply lookup_singleton_Some in Hl as [_ <-]; exact Hx.
    + intros (x & -> & Hx); exists x; split; [done|].
      split; [|by apply contains_elem_of, wheel_contains, (neighbors_in_wheel n d)].
      apply highlight_set_elem; exists n, (neighbors n d); split; [|done].
      apply lookup_singleton_eq.
Qed.

Lemma one_number_marks_its_neighbours_witness :
  exists (page : list st_call) (t1 t2 : list (list (cell * string))),
    main 3 "" = Ok page
    /\ main 3 (str 17)
       = Ok (page ++ [st_subheader "Table 1: Input Numbers Only";
                      st_table t1;
                      st_subheader "Table 2: Input Numbers and Neighbors";
                      st_table t2])%list
    /\ highlighted t1 = [Num 17]
    /\ length (highlighted t2) = Z.to_nat (2 * 3 + 1).
Proof. apply (one_number_marks_its_neighbours 17 3); lia. Defined.

(** X16. A text the parser rejects never reaches the resolver or a
    table, and its error does not leave [main]: the error is a
    [ValueError], and after the four calls that build the page [main]
    makes one more call, [st.error] with "Error: " and the parser's
    message. The empty text is the exception: the parser would reject
    it, but [main] does not parse it and shows the page alone. *)
Theorem parse_error_is_shown (d : Z) (s : string) (e : exn) :
  parse_input s d = Raise e ->
  exists (page : list st_call) (msg : string),
    main d "" = Ok page /\ length page = 4%nat /\ e = ValueError msg
    /\ main d s = Ok (match s with
                      | EmptyString => page
                      | _ => (page ++ [st_error ("Error: " ++ msg)])%list
                      end).
Proof.
  intros He; destruct main_cases as (page & Hempty & Hlen & Hfull).
  destruct (parse_input_raises_ValueError _ _ _ He) as [msg ->].
  exists page, msg; split; [apply Hempty|]. split; [exact Hlen|].
  split; [reflexivity|].
  destruct s as [|c s]; [apply Hempty|].
  rewrite Hfull by done; unfold main_try; by rewrite He.
Qed.

Lemma parse_error_is_shown_witness :
  exists (page : list st_call) (msg : string),
    main 1 "" = Ok page /\ length page = 4%nat
    /\ ValueError (invalid_format_msg "3 3 3") = ValueError msg
    /\ main 1 "3 3 3"
       = Ok (page ++ [st_error ("Error: " ++ msg)])%list.
Proof.
  apply (parse_error_is_shown 1 "3 3 3"); vm_compute; reflexivity.
Defined.

(** ** The wheel read around its ends *)

(** C2. The list wraps around the ends of the wheel, at both of them:
    [roulette_neighbors([(0, 1)])] maps 0 to exactly [[26, 0, 32]], the
    last entry of the wheel, then 0, then the second entry, and
    [roulette_neighbors([(26, 1)])] maps the last entry 26 to
    [[3, 26, 0]], ending on the first entry. In general, for the number
    at place [i] of the wheel, entry [k] of its list is the wheel entry
    at place [(i - r + k) mod 37]. *)
Theorem wrap_around_at_zero :
  roulette_neighbors [(0, 1)] = Ok {[0 := [26; 0; 32]]}
  /\ last wheel = Some 26 /\ wheel !! 0%nat = Some 0 /\ wheel !! 1%nat = Some 32
  /\ roulette_neighbors [(26, 1)] = Ok {[26 := [3; 26; 0]]}
  /\ wheel !! 35%nat = Some 3
  /\ forall (n r k : Z) (i : nat) (m : gmap Z (list Z)) (l : list Z),
       roulette_neighbors [(n, r)] = Ok m -> m !! n = Some l ->
       wheel !! i = Some n -> 0 <= k <= 2 * r ->
       is_Some (l !! Z.to_nat k)
       /\ l !! Z.to_nat k = wheel !! Z.to_nat ((Z.of_nat i - r + k) mod 37).
Proof.
  do 6 (split; [vm_compute; reflexivity|]).
  intros n r k i m l Hm Hl Hi Hk.
  destruct (single_lookup _ _ _ _ Hm Hl) as [[Hn Hr] ->].
  rewrite (wheel_lookup_position n i Hn Hi).
  destruct (position_spec n Hn) as (_ & Hp & _).
  assert (neighbors n r !! Z.to_nat k
          = wheel !! Z.to_nat ((Z.of_nat (Z.to_nat (position n)) - r + k) mod 37))
    as E.
  { rewrite neighbors_lookup by lia. do 3 f_equal; lia. }
  split; [|exact E].
  rewrite E, wheel_at_mod; eauto.
Qed.

Lemma wrap_around_at_zero_witness :
  is_Some ([35; 3; 26; 0; 32] !! Z.to_nat 4)
  /\ [35; 3; 26; 0; 32] !! Z.to_nat 4
     = wheel !! Z.to_nat ((Z.of_nat 36 - 2 + 4) mod 37).
Proof.
  destruct wrap_around_at_zero as (_ & _ & _ & _ & _ & _ & H).
  apply (H 26 2 4 36%nat {[26 := [35; 3; 26; 0; 32]]});
    [vm_compute; reflexivity | vm_compute; reflexivity
    | vm_compute; reflexivity | lia].
Defined.

(** C8. For every [n] in 0-36, [roulette_neighbors([(n, 18)])] maps [n]
    to a list of length 37 in which every wheel number occurs exactly
    once, with [n] itself in the middle: the wheel read once around,
    from the place 18 before the place of [n] to the place 18 after
    it, two places that are next to each other on the wheel. *)
Theorem radius_18_full_wheel (n : Z) :
  0 <= n <= 36 ->
  exists (l : list Z) (i : Z),
    roulette_neighbors [(n, 18)] = Ok {[n := l]}
    /\ list_index wheel n = Ok i
    /\ 0 <= i < 37
    /\ wheel !! Z.to_nat i = Some n
    /\ l !! 18%nat = Some n
    /\ length l = 37%nat
    /\ (forall m : Z, 0 <= m <= 36 -> count_occ Z.eq_dec l m = 1%nat)
    /\ l = rotate (Z.to_nat ((i + 19) mod 37)) wheel
    /\ head l = wheel !! Z.to_nat ((i - 18) mod 37)
    /\ last l = wheel !! Z.to_nat ((i + 18) mod 37)
    /\ (i + 18 + 1) mod 37 = (i - 18) mod 37.
Proof.
  intros Hn; exists (neighbors n 18), (position n).
  destruct (position_spec n Hn) as (Hi & Hp & Hw).
  split; [apply roulette_neighbors_single; lia|].
  split; [exact Hi|]. split; [exact Hp|]. split; [exact Hw|].
  split; [apply (neighbors_centre n 18); lia|].
  split; [by rewrite neighbors_length|].
  split.
  { intros m Hm; rewrite neighbors_18_rotate by done.
    pose proof (proj1 (Permutation_count_occ Z.eq_dec _ _)
                  (rotate_Permutation (Z.to_nat ((position n + 19) mod 37))
                     wheel)) as Hc.
    rewrite Hc; by apply wheel_count_occ. }
  split; [by apply neighbors_18_rotate|].
  split.
  { rewrite head_lookup, (neighbors_lookup n 18 0) by lia.
    by replace (position n - 18 + Z.of_nat 0) with (position n - 18) by lia. }
  split.
  { rewrite last_lookup, neighbors_length by lia.
    change (Init.Nat.pred (Z.to_nat (2 * 18 + 1))) with 36%nat.
    rewrite (neighbors_lookup n 18 36) by lia.
    by replace (position n - 18 + Z.of_nat 36) with (position n + 18) by lia. }
  replace (position n + 18 + 1) with (position n - 18 + 1 * 37) by lia.
  apply Z.mod_add; lia.
Qed.

Lemma radius_18_full_wheel_witness :
  exists (l : list Z) (i : Z),
    roulette_neighbors [(5, 18)] = Ok {[5 := l]}
    /\ list_index wheel 5 = Ok i
    /\ 0 <= i < 37
    /\ wheel !! Z.to_nat i = Some 5
    /\ l !! 18%nat = Some 5
    /\ length l = 37%nat
    /\ (forall m : Z, 0 <= m <= 36 -> count_occ Z.eq_dec l m = 1%nat)
    /\ l = rotate (Z.to_nat ((i + 19) mod 37)) wheel
    /\ head l = wheel !! Z.to_nat ((i - 18) mod 37)
    /\ last l = wheel !! Z.to_nat ((i + 18) mod 37)
    /\ (i + 18 + 1) mod 37 = (i - 18) mod 37.
Proof. apply (radius_18_full_wheel 5); lia. Defined.
